(** * MessengerContext: sequenced, delayed replies with typing indicators

    A shallow embedding of [src/context/MessengerContext.js].

    The context wraps a platform client.  Every send operation builds a job
    and hands it to a job queue; the queue runs the jobs one after another,
    calling the hooks the constructor registered around every job.

    JavaScript runs each piece of synchronous code to completion and
    suspends at an [await].  The embedding follows that: the synchronous
    part of every method is a computation in a small state monad over the
    context's state, and the suspension points (a timer that has not fired,
    a client call that has not settled) are positions of an explicit
    transition system whose labels are the caller's method calls and the
    environment's moves (time passing, a timer firing, a client call
    settling with some outcome).  Everything the context does to the
    outside world is appended to a time-stamped trace, and the statements
    are about the traces and states of all runs.

    Two collaborators of the class are not among the sources and are
    modelled from the specification: the draining loop of
    [DelayableJobQueue] and [setMessageDelay] of the base class.  The
    platform client, [sleep] and [warning] are external: a client call is
    an entry of the trace whose outcome the environment picks, a sleep is a
    timer that fires no earlier than asked, a warning is an entry of the
    trace.

    The last statement of the module, [sendMethods.forEach], which defines
    the generated methods on the prototype of the class, is embedded apart
    from the runs, on a finite map from property names to descriptors. *)

From Stdlib Require Import ZArith.
From stdpp Require Import base option list gmap strings sorting.

Open Scope string_scope.
Open Scope list_scope.
Open Scope nat_scope.

(** ** JavaScript values *)

#[warnings="-register-all"]
Inductive value :=
| VUndef
| VNull
| VBool (b : bool)
| VNum (n : Z)
| VStr (s : string)
| VObj (fields : list (string * value)).

(** The test of [cond ? a : b] and of [if (!x)]. *)
Definition truthy (v : value) : bool :=
  match v with
  | VUndef | VNull => false
  | VBool b => b
  | VNum n => negb (n =? 0)%Z
  | VStr s => match s with EmptyString => false | _ => true end
  | VObj _ => true
  end.

(** Flow's [Object]. *)
Definition is_object (v : value) : bool :=
  match v with VObj _ => true | _ => false end.

(** ** Promises *)

Inductive outcome :=
| Resolved (v : value)
| Rejected (e : value).

Inductive pstate :=
| Pending
| Settled (r : outcome).

(** What a method hands back: a promise the context made itself
    ([Promise.resolve()], [new Promise], the promise of an [async] method),
    or the promise a client call returned, named by the position of that
    call in the trace. *)
Inductive pref :=
| Own (p : nat)
| Client (c : nat).

(** ** Jobs *)

(** The object literal the send methods pass to [_enqueue].  [instance] is
    always [this._client], the only client there is, and is left out.
    [showIndicators] is optional: the hooks read it with a default. *)
Record JobSpec := mkSpec {
  method : string;
  args : list value;
  delay : Z;
  showIndicators : option bool;
}.

(** [{...job, onSuccess: resolve, onError: reject}]: the two callbacks
    settle the promise [deferred]. *)
Record Job := mkJob {
  spec : JobSpec;
  deferred : nat;
}.

(** [({ showIndicators = true })]: the destructuring default of the hooks. *)
Definition indicators (j : JobSpec) : bool := default true (showIndicators j).

(** ** Observable events *)

(** Whose code is running: the caller's, one of the two hooks while job [p]
    is being processed, the queue handling job [p] itself, or the activation
    of [typing] whose promise is [k]. *)
Inductive origin :=
| User
| HookBefore (p : nat)
| Running (p : nat)
| HookAfter (p : nat)
| Animation (k : nat).

Inductive event :=
| Warned (msg : string)                    (* warning(false, msg) *)
| Called (m : string) (a : list value)     (* client[m](...a) is invoked *)
| Returned (r : outcome)                   (* an awaited client call settled *)
| Slept (ms : Z)                           (* sleep(ms) is started *)
| Woke                                     (* the timer of a sleep fired *)
| Enqueued (j : Job)                       (* a job entered the queue *)
| Notified (p : nat) (r : outcome).        (* onSuccess / onError of job p *)

Record entry := Entry {
  time : Z;
  who : origin;
  what : event;
}.

(** ** State of one context *)

(** Position of the queue's draining loop. *)
Inductive Phase :=
| Idle
| Sleeping (j : Job) (since : Z)     (* in the before hook, awaiting sleep *)
| Calling (j : Job)                  (* awaiting the client call *)
| Finishing (j : Job) (r : outcome). (* awaiting the after hook *)

(** Position of one activation of [typing]. *)
Inductive TypingPhase :=
| AwaitOn (ms : Z) (w : pref)        (* await this.typingOn() *)
| AwaitSleep (ms : Z) (since : Z)    (* await sleep(milliseconds) *)
| AwaitOff (w : pref).               (* await this.typingOff() *)

Record State := mkState {
  session : option string;           (* this._session, as session.user.id *)
  messageDelay : Z;                  (* this._messageDelay *)
  queue : list Job;                  (* pending jobs of this._jobQueue *)
  phase : Phase;
  typings : gmap nat TypingPhase;
  deferreds : list pstate;           (* promises made by the context *)
  now : Z;                           (* milliseconds *)
  actor : origin;
  trace : list entry;
}.

Definition set_messageDelay (d : Z) (s : State) : State :=
  mkState (session s) d (queue s) (phase s) (typings s) (deferreds s)
          (now s) (actor s) (trace s).
Definition set_queue (q : list Job) (s : State) : State :=
  mkState (session s) (messageDelay s) q (phase s) (typings s) (deferreds s)
          (now s) (actor s) (trace s).
Definition set_phase (ph : Phase) (s : State) : State :=
  mkState (session s) (messageDelay s) (queue s) ph (typings s) (deferreds s)
          (now s) (actor s) (trace s).
Definition set_typings (t : gmap nat TypingPhase) (s : State) : State :=
  mkState (session s) (messageDelay s) (queue s) (phase s) t (deferreds s)
          (now s) (actor s) (trace s).
Definition set_deferreds (d : list pstate) (s : State) : State :=
  mkState (session s) (messageDelay s) (queue s) (phase s) (typings s) d
          (now s) (actor s) (trace s).
Definition set_now (t : Z) (s : State) : State :=
  mkState (session s) (messageDelay s) (queue s) (phase s) (typings s)
          (deferreds s) t (actor s) (trace s).
Definition set_actor (o : origin) (s : State) : State :=
  mkState (session s) (messageDelay s) (queue s) (phase s) (typings s)
          (deferreds s) (now s) o (trace s).
Definition set_trace (tr : list entry) (s : State) : State :=
  mkState (session s) (messageDelay s) (queue s) (phase s) (typings s)
          (deferreds s) (now s) (actor s) tr.

(** ** The monad of synchronous code *)

Definition M (A : Type) : Type := State → A * State.

Definition ret {A} (a : A) : M A := λ s, (a, s).
Definition bind {A B} (m : M A) (k : A → M B) : M B :=
  λ s, let '(a, s') := m s in k a s'.

Declare Scope ctx_scope.
Delimit Scope ctx_scope with ctx.
Bind Scope ctx_scope with M.
Notation "'let*' x := m 'in' k" := (bind m (λ x, k))
  (at level 10, x name, m at level 100, k at level 200) : ctx_scope.
Notation "m >> k" := (bind m (λ _, k))
  (at level 100, k at level 200, right associativity) : ctx_scope.
Open Scope ctx_scope.

Definition exec {A} (m : M A) (s : State) : State := (m s).2.

Definition get {A} (f : State → A) : M A := λ s, (f s, s).
Definition modify (f : State → State) : M unit := λ s, ((), f s).

(** Append one entry, stamped with the clock and the running code. *)
Definition emit (e : event) : M unit :=
  modify (λ s, set_trace (trace s ++ [Entry (now s) (actor s) e]) s).

(** Run [m] on behalf of [o]. *)
Definition as_actor {A} (o : origin) (m : M A) : M A :=
  let* old := get actor in
  modify (set_actor o) >>
  let* a := m in
  modify (set_actor old) >>
  ret a.

(** [warning(false, msg)] of the [warning] package: the condition is false,
    so the message is always reported. *)
Definition warning (msg : string) : M unit := emit (Warned msg).

(** [sleep(ms)] of the [delay] package starts a timer; the caller awaits it. *)
Definition sleep (ms : Z) : M unit := emit (Slept ms).

(** [this._client[m](...a)]: the call is recorded and its promise named by
    the position of the record. *)
Definition client_call (m : string) (a : list value) : M pref :=
  let* c := get (λ s, length (trace s)) in
  emit (Called m a) >>
  ret (Client c).

(** [new Promise(...)]: a fresh pending promise. *)
Definition new_promise : M nat :=
  let* p := get (λ s, length (deferreds s)) in
  modify (λ s, set_deferreds (deferreds s ++ [Pending]) s) >>
  ret p.

(** [Promise.resolve()]: a fresh promise, already resolved with undefined. *)
Definition promise_resolve : M pref :=
  let* p := get (λ s, length (deferreds s)) in
  modify (λ s, set_deferreds (deferreds s ++ [Settled (Resolved VUndef)]) s) >>
  ret (Own p).

(** [resolve(v)] or [reject(e)] on promise [p]: a promise settles once, a
    later call does nothing. *)
Definition settle (p : nat) (r : outcome) : M unit :=
  modify (λ s,
    set_deferreds
      match deferreds s !! p with
      | Some Pending => <[p := Settled r]> (deferreds s)
      | _ => deferreds s
      end s).

(** ** Session-scoped indicator operations (source lines 101-121) *)

(** The text of the session-missing warning of the operation [name]. *)
Definition no_session (name : string) : string :=
  name +:+ ": should not be called in context without session".

Definition typingOn : M pref :=
  let* sess := get session in
  match sess with
  | None => warning (no_session "typingOn") >> promise_resolve
  | Some uid => client_call "typingOn" [VStr uid]
  end.

Definition typingOff : M pref :=
  let* sess := get session in
  match sess with
  | None => warning (no_session "typingOff") >> promise_resolve
  | Some uid => client_call "typingOff" [VStr uid]
  end.

(** ** The hooks the constructor registers (source lines 29-39) *)

(** [beforeEach]: the promise of [this.typingOn()] is dropped, not awaited,
    so its outcome is nothing to the hook; the hook is suspended in
    [sleep(delay)] when this code returns. *)
Definition beforeEach_hook (j : JobSpec) : M unit :=
  (if indicators j then typingOn >> ret () else ret ()) >>
  sleep (delay j).

(** [after]: the promise of [this.typingOff()] is dropped as well. *)
Definition after_hook (j : JobSpec) : M unit :=
  if indicators j then typingOff >> ret () else ret ().

(** ** DelayableJobQueue *)

Module DelayableJobQueue.
Section Hooks.

(** The two hook slots, [beforeEach(hook)] and [after(hook)]. *)
Variables before_hook after_hook : JobSpec → M unit.

(** Modelled from the spec: the draining loop of [DelayableJobQueue.js],
    which is not among the sources.  Head of the loop: the queue becomes
    idle when no jobs remain; otherwise the head job is popped and the
    before hook is invoked and awaited. *)
Definition process_next : M unit :=
  let* q := get queue in
  match q with
  | [] => modify (set_phase Idle)
  | j :: rest =>
      modify (set_queue rest) >>
      as_actor (HookBefore (deferred j)) (before_hook (spec j)) >>
      let* t := get now in
      modify (set_phase (Sleeping j t))
  end.

(** Modelled from the spec: [enqueue(job)] appends the job to the pending
    list and, if the queue was idle, starts draining immediately. *)
Definition enqueue (j : Job) : M unit :=
  modify (λ s, set_queue (queue s ++ [j]) s) >>
  emit (Enqueued j) >>
  let* ph := get phase in
  match ph with
  | Idle => process_next
  | _ => ret ()
  end.

(** Modelled from the spec: the before hook has been awaited; the job's
    action, a method call against the bound instance with the job's
    argument list, is invoked and awaited. *)
Definition invoke (j : Job) : M unit :=
  as_actor (HookBefore (deferred j)) (emit Woke) >>
  as_actor (Running (deferred j))
    (client_call (method (spec j)) (args (spec j)) >> ret ()) >>
  modify (set_phase (Calling j)).

(** Modelled from the spec: the action settled, with a resolution or a
    rejection alike; the after hook is invoked and awaited. *)
Definition settled (j : Job) (r : outcome) : M unit :=
  as_actor (Running (deferred j)) (emit (Returned r)) >>
  as_actor (HookAfter (deferred j)) (after_hook (spec j)) >>
  modify (set_phase (Finishing j r)).

(** Modelled from the spec: the after hook has been awaited; the action's
    resolution goes to [onSuccess], its rejection to [onError], and the
    loop proceeds to the next job whichever it was. *)
Definition finish (j : Job) (r : outcome) : M unit :=
  as_actor (Running (deferred j))
    (settle (deferred j) r >> emit (Notified (deferred j) r)) >>
  process_next.

End Hooks.
End DelayableJobQueue.

(** ** MessengerContext *)

(** Modelled from the spec: [setMessageDelay] of the base class [Context],
    which is not among the sources; it sets the default message delay. *)
Definition setMessageDelay (milliseconds : Z) : M unit :=
  modify (set_messageDelay milliseconds).

(** [get platform()]. *)
Definition platform : string := "messenger".

(** [_enqueue(job)] (source lines 123-131): the executor of [new Promise]
    runs at once and enqueues the job with the promise's two callbacks. *)
Definition _enqueue (job : JobSpec) : M pref :=
  let* p := new_promise in
  DelayableJobQueue.enqueue beforeEach_hook (mkJob job p) >>
  ret (Own p).

(** [sendText(text, options?)] (source lines 65-82); [options] is [None]
    when the argument is left out. *)
Definition sendText (text : string) (options : option value) : M pref :=
  let* sess := get session in
  match sess with
  | None => warning (no_session "sendText") >> promise_resolve
  | Some uid =>
      let* d := get messageDelay in
      _enqueue {|
        method := "sendText";
        args := match options with
                | Some o => if truthy o then [VStr uid; VStr text; o]
                            else [VStr uid; VStr text]
                | None => [VStr uid; VStr text]
                end;
        delay := d;
        showIndicators := Some true |}
  end.

(** [sendTextWithDelay(delay, text)] (source lines 84-99). *)
Definition sendTextWithDelay (delay : Z) (text : string) : M pref :=
  let* sess := get session in
  match sess with
  | None => warning (no_session "sendTextWithDelay") >> promise_resolve
  | Some uid =>
      _enqueue {|
        method := "sendText";
        args := [VStr uid; VStr text];
        delay := delay;
        showIndicators := Some true |}
  end.

(** [sendMethods] (source lines 134-149). *)
Definition sendMethods : list string := [
  "sendAttachment";
  "sendImage";
  "sendAudio";
  "sendVideo";
  "sendFile";
  "sendQuickReplies";
  "sendGenericTemplate";
  "sendButtonTemplate";
  "sendListTemplate";
  "sendReceiptTemplate";
  "sendAirlineBoardingPassTemplate";
  "sendAirlineCheckinTemplate";
  "sendAirlineItineraryTemplate";
  "sendAirlineFlightUpdateTemplate"
].

(** The function installed under the name [method] (source lines 156-172). *)
Definition send (method : string) (args : list value) : M pref :=
  let* sess := get session in
  match sess with
  | None => warning (no_session method) >> promise_resolve
  | Some uid =>
      let* d := get messageDelay in
      _enqueue {|
        method := method;
        args := VStr uid :: args;
        delay := d;
        showIndicators := Some true |}
  end.

(** The text of the deprecation warning of the operation [name]. *)
Definition deprecated (name : string) : string := name +:+ " is deprecated.".

(** The function installed under the name [method + "WithDelay"] (source
    lines 179-196). *)
Definition sendWithDelay (method : string) (delay : Z) (rest : list value)
  : M pref :=
  warning (deprecated (method +:+ "WithDelay")) >>
  let* sess := get session in
  match sess with
  | None => warning (no_session (method +:+ "WithDelay")) >> promise_resolve
  | Some uid =>
      _enqueue {|
        method := method;
        args := VStr uid :: rest;
        delay := delay;
        showIndicators := Some true |}
  end.

(** [typing(milliseconds)] (source lines 55-59), an [async] method: the call
    makes the method's promise [k], runs up to the first [await] and leaves
    the activation suspended there. *)
Definition typing (milliseconds : Z) : M pref :=
  let* k := new_promise in
  as_actor (Animation k)
    (let* w := typingOn in
     modify (λ s, set_typings (<[k := AwaitOn milliseconds w]> (typings s)) s)) >>
  ret (Own k).

(** [await this.typingOn()] is over.  A resolution lets the activation go on
    to [await sleep(milliseconds)]; a rejection is thrown out of the method,
    whose promise rejects. *)
Definition typing_on_settled (k : nat) (ms : Z) (r : outcome) : M unit :=
  as_actor (Animation k)
    (emit (Returned r) >>
     match r with
     | Resolved _ =>
         sleep ms >>
         let* t := get now in
         modify (λ s, set_typings (<[k := AwaitSleep ms t]> (typings s)) s)
     | Rejected e =>
         settle k (Rejected e) >>
         modify (λ s, set_typings (delete k (typings s)) s)
     end).

(** [await sleep(milliseconds)] is over: on to [await this.typingOff()]. *)
Definition typing_woke (k : nat) : M unit :=
  as_actor (Animation k)
    (emit Woke >>
     let* w := typingOff in
     modify (λ s, set_typings (<[k := AwaitOff w]> (typings s)) s)).

(** [await this.typingOff()] is over and so is the method: its promise
    resolves with undefined, or rejects with what was thrown. *)
Definition typing_off_settled (k : nat) (r : outcome) : M unit :=
  as_actor (Animation k)
    (emit (Returned r) >>
     settle k (match r with
               | Resolved _ => Resolved VUndef
               | Rejected e => Rejected e
               end) >>
     modify (λ s, set_typings (delete k (typings s)) s)).

(** The constructor (source lines 26-41), at time 0: a fresh idle queue with
    the two hooks, and [this.setMessageDelay(1000)]. *)
Definition constructor (session : option string) : State :=
  exec (setMessageDelay 1000)
       (mkState session 0 [] Idle ∅ [] 0 User []).

(** ** The transition system *)

(** What a caller can do with a context.  [Enqueue] is the internal helper
    [_enqueue] called directly; the others are the public operations. *)
Inductive Op :=
| SendText (text : string) (options : option value)
| SendTextWithDelay (delay : Z) (text : string)
| TypingOn
| TypingOff
| Typing (milliseconds : Z)
| Send (m : string) (args : list value)
| SendWithDelay (m : string) (delay : Z) (rest : list value)
| SetMessageDelay (milliseconds : Z)
| Enqueue (job : JobSpec).

(** [sendMethods.forEach] defines [m] and [m + "WithDelay"] for the listed
    names only. *)
Definition defined (o : Op) : bool :=
  match o with
  | Send m _ | SendWithDelay m _ _ => bool_decide (m ∈ sendMethods)
  | _ => true
  end.

(** The operations of the public interface. *)
Definition public (o : Op) : bool :=
  match o with
  | Enqueue _ => false
  | _ => true
  end.

(** A method that returns a promise. *)
Definition returning (m : M pref) : M (option pref) :=
  let* p := m in ret (Some p).

(** The call of an operation, with the promise it returns if it returns
    one. *)
Definition call (o : Op) : M (option pref) :=
  match o with
  | SendText text options => returning (sendText text options)
  | SendTextWithDelay d text => returning (sendTextWithDelay d text)
  | TypingOn => returning typingOn
  | TypingOff => returning typingOff
  | Typing ms => returning (typing ms)
  | Send m a => returning (send m a)
  | SendWithDelay m d rest => returning (sendWithDelay m d rest)
  | SetMessageDelay d => setMessageDelay d >> ret None
  | Enqueue job => returning (_enqueue job)
  end.

(** The labels: what the caller does and what the environment does. *)
Inductive label :=
| Do (o : Op)                            (* the caller calls a method *)
| Tick (ms : Z)                          (* time passes *)
| TimerFired                             (* the sleep of the before hook *)
| ActionSettled (r : outcome)            (* the job's client call *)
| AfterDone                              (* the after hook *)
| AnimOnSettled (k : nat) (r : outcome)  (* typingOn() awaited by typing k *)
| AnimTimerFired (k : nat)               (* the sleep of typing k *)
| AnimOffSettled (k : nat) (r : outcome). (* typingOff() awaited by typing k *)

(** What an [await] of [w] continues with: the outcome stored in one of the
    context's own promises, or the outcome [r] the environment picks for a
    client call. *)
Definition awaited (s : State) (w : pref) (r : outcome) : option outcome :=
  match w with
  | Own p => match deferreds s !! p with
             | Some (Settled r') => Some r'
             | _ => None
             end
  | Client _ => Some r
  end.

(** One step; [None] when the label is not there to take: a method that
    is not defined, time running backwards, a timer that is not due, the
    settling of a call nobody awaits. *)
Definition step (s : State) (l : label) : option State :=
  match l with
  | Do o => if defined o then Some (exec (call o) s) else None
  | Tick ms => if (0 <=? ms)%Z then Some (set_now (now s + ms)%Z s) else None
  | TimerFired =>
      match phase s with
      | Sleeping j since =>
          if (since + delay (spec j) <=? now s)%Z
          then Some (exec (DelayableJobQueue.invoke j) s)
          else None
      | _ => None
      end
  | ActionSettled r =>
      match phase s with
      | Calling j => Some (exec (DelayableJobQueue.settled after_hook j r) s)
      | _ => None
      end
  | AfterDone =>
      match phase s with
      | Finishing j r =>
          Some (exec (DelayableJobQueue.finish beforeEach_hook j r) s)
      | _ => None
      end
  | AnimOnSettled k r =>
      match typings s !! k with
      | Some (AwaitOn ms w) =>
          r' ← awaited s w r; Some (exec (typing_on_settled k ms r') s)
      | _ => None
      end
  | AnimTimerFired k =>
      match typings s !! k with
      | Some (AwaitSleep ms since) =>
          if (since + ms <=? now s)%Z
          then Some (exec (typing_woke k) s)
          else None
      | _ => None
      end
  | AnimOffSettled k r =>
      match typings s !! k with
      | Some (AwaitOff w) =>
          r' ← awaited s w r; Some (exec (typing_off_settled k r') s)
      | _ => None
      end
  end.

(** A run: the steps of [ls], one after the other. *)
Fixpoint run (s : State) (ls : list label) : option State :=
  match ls with
  | [] => Some s
  | l :: ls' => s' ← step s l; run s' ls'
  end.

(** The steps as rules: [Step s l s'] is [step s l = Some s'], case by
    case. *)
Inductive Step (s : State) : label → State → Prop :=
| Step_do o :
    defined o = true →
    Step s (Do o) (exec (call o) s)
| Step_tick ms :
    (0 ≤ ms)%Z →
    Step s (Tick ms) (set_now (now s + ms)%Z s)
| Step_timer j since :
    phase s = Sleeping j since →
    (since + delay (spec j) ≤ now s)%Z →
    Step s TimerFired (exec (DelayableJobQueue.invoke j) s)
| Step_settled j r :
    phase s = Calling j →
    Step s (ActionSettled r) (exec (DelayableJobQueue.settled after_hook j r) s)
| Step_after j r :
    phase s = Finishing j r →
    Step s AfterDone (exec (DelayableJobQueue.finish beforeEach_hook j r) s)
| Step_typing_on k ms w r r' :
    typings s !! k = Some (AwaitOn ms w) →
    awaited s w r = Some r' →
    Step s (AnimOnSettled k r) (exec (typing_on_settled k ms r') s)
| Step_typing_timer k ms since :
    typings s !! k = Some (AwaitSleep ms since) →
    (since + ms ≤ now s)%Z →
    Step s (AnimTimerFired k) (exec (typing_woke k) s)
| Step_typing_off k w r r' :
    typings s !! k = Some (AwaitOff w) →
    awaited s w r = Some r' →
    Step s (AnimOffSettled k r) (exec (typing_off_settled k r') s).

(** A step of the caller that stays within the public interface, or a step
    of the environment. *)
Definition public_label (l : label) : bool :=
  match l with
  | Do o => public o
  | _ => true
  end.

(** A step of the environment: time passing, a timer firing, a client call
    settling. *)
Definition env_label (l : label) : bool :=
  match l with
  | Do _ => false
  | _ => true
  end.

(** The labels that see a job through once its before hook is asleep: its
    delay elapses, the timer fires, the action settles with [r], the after
    hook completes. *)
Definition see_through (j : Job) (r : outcome) : list label :=
  [Tick (Z.max 0 (delay (spec j))); TimerFired; ActionSettled r; AfterDone].

(** The phase the loop is in after a job, with [q] pending at time [t]. *)
Definition next_phase (q : list Job) (t : Z) : Phase :=
  match q with
  | [] => Idle
  | j :: _ => Sleeping j t
  end.

(** ** Reading a trace *)

(** The warnings of a trace, in order. *)
Definition warnings (tr : list entry) : list string :=
  omap (λ e, match what e with Warned msg => Some msg | _ => None end) tr.

(** The calls on the client of a trace, in order. *)
Definition client_calls (tr : list entry) : list (string * list value) :=
  omap (λ e, match what e with Called m a => Some (m, a) | _ => None end) tr.

(** The jobs enqueued in a trace, in order. *)
Definition enqueued (tr : list entry) : list Job :=
  omap (λ e, match what e with Enqueued j => Some j | _ => None end) tr.

(** An entry of the queue or of a hook it called. *)
Definition by_queue (e : entry) : bool :=
  match who e with
  | HookBefore _ | Running _ | HookAfter _ => true
  | _ => false
  end.

(** The part of a trace that is the queue's doing. *)
Definition queue_trace (tr : list entry) : list entry :=
  filter (λ e, by_queue e = true) tr.

(** The job in progress. *)
Definition current (ph : Phase) : list Job :=
  match ph with
  | Idle => []
  | Sleeping j _ | Calling j | Finishing j _ => [j]
  end.

(** The jobs the queue holds, in the order they were enqueued in. *)
Definition held (s : State) : list Job := current (phase s) ++ queue s.

(** [res], the result of running a method in [s], is the enqueueing of a
    job [js]: a fresh promise is made and returned, pending, and the job
    carrying it is recorded and joins the back of the queue. *)
Definition accepted (js : JobSpec) (s : State) (res : pref * State) : Prop :=
  let j := mkJob js (length (deferreds s)) in
  res.1 = Own (length (deferreds s)) ∧
  deferreds s ++ [Pending] `prefix_of` deferreds res.2 ∧
  enqueued (trace res.2) = enqueued (trace s) ++ [j] ∧
  held res.2 = held s ++ [j].

(** A promise that is settled in [ds] is settled the same way in [ds']. *)
Definition keeps_settled (ds ds' : list pstate) : Prop :=
  ∀ p r, ds !! p = Some (Settled r) → ds' !! p = Some (Settled r).

(** ** Vocabulary of the statements *)

(** The operations that need a session. *)
Definition session_scoped (o : Op) : bool :=
  match o with
  | SendText _ _ | SendTextWithDelay _ _ | TypingOn | TypingOff
  | Send _ _ | SendWithDelay _ _ _ => true
  | Typing _ | SetMessageDelay _ | Enqueue _ => false
  end.

(** The name an operation is called by. *)
Definition op_name (o : Op) : string :=
  match o with
  | SendText _ _ => "sendText"
  | SendTextWithDelay _ _ => "sendTextWithDelay"
  | TypingOn => "typingOn"
  | TypingOff => "typingOff"
  | Typing _ => "typing"
  | Send m _ => m
  | SendWithDelay m _ _ => m +:+ "WithDelay"
  | SetMessageDelay _ => "setMessageDelay"
  | Enqueue _ => "_enqueue"
  end.

(** [s] ends with [suffix]. *)
Fixpoint ends_with (suffix s : string) : bool :=
  if String.eqb s suffix then true
  else match s with
       | EmptyString => false
       | String _ s' => ends_with suffix s'
       end.

(** A warning that reports the use of something deprecated. *)
Definition is_deprecation (msg : string) : bool :=
  ends_with " is deprecated." msg.

(** The deprecation warnings of a trace, in order. *)
Definition deprecations (tr : list entry) : list string :=
  filter (λ msg, is_deprecation msg = true) (warnings tr).

(** [options?: Object]: left out, or an object. *)
Definition well_typed_options (options : option value) : Prop :=
  from_option (λ o, is_object o = true) True options.

(** The job [sendText] builds. *)
Definition text_job (uid text : string) (options : option value) (d : Z)
  : JobSpec :=
  {| method := "sendText";
     args := [VStr uid; VStr text] ++ option_list options;
     delay := d;
     showIndicators := Some true |}.

(** The job the generated method [m] builds. *)
Definition send_job (m uid : string) (a : list value) (d : Z) : JobSpec :=
  {| method := m;
     args := VStr uid :: a;
     delay := d;
     showIndicators := Some true |}.

(** Run [m] with the default message delay set to [d] for the time of the
    call. *)
Definition with_delay {A} (d : Z) (m : M A) : M A :=
  let* old := get messageDelay in
  setMessageDelay d >>
  let* a := m in
  setMessageDelay old >>
  ret a.

(** [res], the result of running a session-scoped method in [s], is a
    no-op that warned [msgs]: a fresh promise, already resolved, is
    returned, the messages are reported, and nothing else happened: no
    client call, no job, no change to the queue or to an activation of
    [typing]. *)
Definition warned_noop (msgs : list string) (s : State) (res : pref * State)
  : Prop :=
  res.1 = Own (length (deferreds s)) ∧
  deferreds res.2 = deferreds s ++ [Settled (Resolved VUndef)] ∧
  warnings (trace res.2) = warnings (trace s) ++ msgs ∧
  client_calls (trace res.2) = client_calls (trace s) ∧
  enqueued (trace res.2) = enqueued (trace s) ∧
  queue res.2 = queue s ∧ phase res.2 = phase s ∧ typings res.2 = typings s.

(** ** The shape of what the queue does *)

(** What a hook's [this.typingOn()] or [this.typingOff()] does at time [t]:
    the signal goes to the client when there is a session, and a warning is
    reported when there is none. *)
Definition signal (sess : option string) (w : origin) (t : Z) (name : string)
  : list entry :=
  match sess with
  | Some uid => [Entry t w (Called name [VStr uid])]
  | None => [Entry t w (Warned (no_session name))]
  end.

(** The before hook of job [j], invoked at [t]. *)
Definition before_part (sess : option string) (j : Job) (t : Z) : list entry :=
  (if indicators (spec j)
   then signal sess (HookBefore (deferred j)) t "typingOn" else []) ++
  [Entry t (HookBefore (deferred j)) (Slept (delay (spec j)))].

(** The sleep of the before hook is over at [t]: the hook completes and the
    action of the job is invoked. *)
Definition invoke_part (j : Job) (t : Z) : list entry :=
  [Entry t (HookBefore (deferred j)) Woke;
   Entry t (Running (deferred j)) (Called (method (spec j)) (args (spec j)))].

(** The action settles at [t] with [r] and the after hook is invoked. *)
Definition after_part (sess : option string) (j : Job) (t : Z) (r : outcome)
  : list entry :=
  Entry t (Running (deferred j)) (Returned r) ::
  (if indicators (spec j)
   then signal sess (HookAfter (deferred j)) t "typingOff" else []).

(** The after hook is over at [t]: the caller of the job is told. *)
Definition finish_part (j : Job) (t : Z) (r : outcome) : list entry :=
  [Entry t (Running (deferred j)) (Notified (deferred j) r)].

(** One job, processed from beginning to end. *)
Record Episode := mkEpisode {
  ep_job : Job;
  ep_started : Z;      (* the before hook is invoked *)
  ep_invoked : Z;      (* the action is invoked *)
  ep_settled : Z;      (* the action settles *)
  ep_outcome : outcome;
  ep_finished : Z;     (* the caller is told *)
}.

(** The entries of an episode, in order. *)
Definition episode (sess : option string) (ep : Episode) : list entry :=
  before_part sess (ep_job ep) (ep_started ep) ++
  invoke_part (ep_job ep) (ep_invoked ep) ++
  after_part sess (ep_job ep) (ep_settled ep) (ep_outcome ep) ++
  finish_part (ep_job ep) (ep_finished ep) (ep_outcome ep).

(** The action is invoked when the delay of the job has elapsed since the
    before hook was invoked; the rest is in the order of time. *)
Definition timely (ep : Episode) : Prop :=
  (ep_started ep + delay (spec (ep_job ep)) ≤ ep_invoked ep)%Z ∧
  (ep_invoked ep ≤ ep_settled ep)%Z ∧
  (ep_settled ep ≤ ep_finished ep)%Z.



(** [cur] is what the queue has done so far for the job it is processing in
    phase [ph], at time [t]. *)
Definition in_progress (sess : option string) (ph : Phase) (t : Z)
    (cur : list entry) : Prop :=
  match ph with
  | Idle => cur = []
  | Sleeping j t0 => (t0 ≤ t)%Z ∧ cur = before_part sess j t0
  | Calling j =>
      ∃ t0 t1, (t0 + delay (spec j) ≤ t1)%Z ∧ (t1 ≤ t)%Z ∧
        cur = before_part sess j t0 ++ invoke_part j t1
  | Finishing j r =>
      ∃ t0 t1 t2, (t0 + delay (spec j) ≤ t1)%Z ∧ (t1 ≤ t2)%Z ∧ (t2 ≤ t)%Z ∧
        cur = before_part sess j t0 ++ invoke_part j t1 ++
              after_part sess j t2 r
  end.

(** The queue processes the enqueued jobs one after another, in the order
    they were enqueued in: what the queue has done is the episodes of the
    jobs [done] with, one after the other, followed by the beginning [cur]
    of the episode of the job in progress, and the jobs enqueued are those
    done with, then the one in progress, then the pending ones. *)
Definition serial (sess : option string) (s : State)
    (done : list Episode) (cur : list entry) : Prop :=
  queue_trace (trace s) = flat_map (episode sess) done ++ cur ∧
  in_progress sess (phase s) (now s) cur ∧
  enqueued (trace s) = (ep_job <$> done) ++ held s ∧
  Forall timely done ∧
  Forall (λ ep, (ep_finished ep ≤ now s)%Z) done.


(** What holds of every state a context can be in: the caller's code is the
    one running between two steps, and the queue is serial. *)
Definition inv (sess : option string) (s : State) : Prop :=
  session s = sess ∧ actor s = User ∧ ∃ done cur, serial sess s done cur.

(** Between [s] and [s'] the queue has not moved. *)
Definition queue_frame (s s' : State) : Prop :=
  session s' = session s ∧ actor s' = actor s ∧
  queue s' = queue s ∧ phase s' = phase s ∧ (now s ≤ now s')%Z ∧
  queue_trace (trace s') = queue_trace (trace s) ∧
  enqueued (trace s') = enqueued (trace s).

(** ** Invocations, callbacks and promises *)

(** The actions of jobs invoked on the client, in the order of invocation:
    the promise of the job, the method and the arguments. *)
Definition invocations (tr : list entry) : list (nat * string * list value) :=
  omap (λ e, match who e, what e with
             | Running p, Called m a => Some (p, m, a)
             | _, _ => None
             end) tr.

(** The invocation a job asks for. *)
Definition invocation_of (j : Job) : nat * string * list value :=
  (deferred j, method (spec j), args (spec j)).



(** The callbacks of jobs the queue has called, with what they were given. *)
Definition notified (tr : list entry) : list (nat * outcome) :=
  omap (λ e, match what e with
             | Notified p r => Some (p, r)
             | _ => None
             end) tr.

(** The promises of the jobs the queue holds are pending and differ from one
    another and from the promises of the activations of [typing], which are
    pending as well; the promise of a job whose callback was called is
    settled with what the callback was given. *)
Definition promises_ok (s : State) : Prop :=
  NoDup (deferred <$> held s) ∧
  (∀ j, j ∈ held s → deferreds s !! deferred j = Some Pending) ∧
  (∀ k, is_Some (typings s !! k) →
        deferreds s !! k = Some Pending ∧ k ∉ deferred <$> held s) ∧
  (∀ p r, (p, r) ∈ notified (trace s) →
          deferreds s !! p = Some (Settled r)).

(** Between [s] and [s'] no job came or went, and the promises changed in
    two ways at most: new ones were made, and activations of [typing] that
    came to their end settled theirs. *)
Definition promise_frame (s s' : State) : Prop :=
  held s' = held s ∧
  notified (trace s') = notified (trace s) ∧
  keeps_settled (deferreds s) (deferreds s') ∧
  (∀ p, deferreds s !! p = Some Pending →
        deferreds s' !! p = Some Pending ∨
        (is_Some (typings s !! p) ∧ typings s' !! p = None)) ∧
  (∀ k, is_Some (typings s' !! k) →
        is_Some (typings s !! k) ∨
        (deferreds s !! k = None ∧ deferreds s' !! k = Some Pending)).

(** ** The shape of what an activation of [typing] does *)

Global Instance origin_eq_dec : EqDecision origin.
Proof. solve_decision. Defined.

(** The part of a trace that is the doing of the activation of [typing]
    whose promise is [k]. *)
Definition typing_trace (k : nat) (tr : list entry) : list entry :=
  filter (λ e, who e = Animation k) tr.








(** The steps of the activations of [typing]. *)
Definition typing_label (l : label) : bool :=
  match l with
  | Do (Typing _) | AnimOnSettled _ _ | AnimTimerFired _ | AnimOffSettled _ _
    => true
  | _ => false
  end.




(** ** Installing the generated methods (source lines 151-198) *)

(** What a property of the prototype holds: a member of the class body, or
    one of the two functions [sendMethods.forEach] makes for the name [m]. *)
Inductive Method :=
| Declared (name : string)
| Generated (m : string)
| GeneratedWithDelay (m : string).

Global Instance Method_eq_dec : EqDecision Method.
Proof. solve_decision. Defined.

(** A property descriptor. *)
Record Descriptor := mkDescriptor {
  prop_value : Method;
  enumerable : bool;
  configurable : bool;
  writable : bool;
}.

Global Instance Descriptor_eq_dec : EqDecision Descriptor.
Proof. solve_decision. Defined.

(** The members of the class body (source lines 26-131). *)
Definition class_body : list string :=
  ["constructor"; "platform"; "typing"; "sendText"; "sendTextWithDelay";
   "typingOn"; "typingOff"; "_enqueue"].

(** The property a member of a class body makes: not enumerable,
    configurable, and writable unless it is an accessor, as the getter
    [platform] is, which has no setter. *)
Definition declared (n : string) : Descriptor :=
  mkDescriptor (Declared n) false true (negb (String.eqb n "platform")).

(** The property [sendMethods.forEach] defines for a value (source lines
    152-155 and 175-178). *)
Definition generated (v : Method) : Descriptor :=
  mkDescriptor v false true true.

(** The prototype when the class has been evaluated. *)
Definition class_prototype : gmap string Descriptor :=
  list_to_map ((λ n, (n, declared n)) <$> class_body).

(** [Object.defineProperty(proto, name, d)]: a property that is there and
    is not configurable cannot be redefined, and the call throws. *)
Definition defineProperty (name : string) (d : Descriptor)
    (proto : gmap string Descriptor) : option (gmap string Descriptor) :=
  match proto !! name with
  | Some old => if configurable old then Some (<[name := d]> proto) else None
  | None => Some (<[name := d]> proto)
  end.

(** The body of [sendMethods.forEach] (source lines 152-197). *)
Definition install (proto : gmap string Descriptor) (m : string)
  : option (gmap string Descriptor) :=
  proto' ← defineProperty m (generated (Generated m)) proto;
  defineProperty (m +:+ "WithDelay") (generated (GeneratedWithDelay m)) proto'.

(** [sendMethods.forEach(...)] on the prototype of the class. *)
Definition prototype : option (gmap string Descriptor) :=
  foldl (λ acc m, acc ≫= λ proto, install proto m)
        (Some class_prototype) sendMethods.

(** The properties of the prototype once the module is loaded, written out. *)
Definition installed : list (string * Descriptor) :=
  ((λ n, (n, declared n)) <$> class_body) ++
  flat_map (λ m, [(m, generated (Generated m));
                  (m +:+ "WithDelay", generated (GeneratedWithDelay m))])
           sendMethods.

(** ** Vocabulary of the statements about whole runs *)

(** The arguments of a call on the client begin with the user id of the
    session. *)
Definition to_user (sess : option string) (a : list value) : Prop :=
  ∃ uid rest, sess = Some uid ∧ a = VStr uid :: rest.

(** The methods of the client the send operations name. *)
Definition send_names : list string := "sendText" :: sendMethods.

(** The methods of the client a context calls. *)
Definition client_methods : list string :=
  ["typingOn"; "typingOff"] ++ send_names.

(** A job of the public interface: one of the send methods of the client,
    for the user of the session. *)
Definition job_ok (sess : option string) (j : Job) : Prop :=
  method (spec j) ∈ send_names ∧ to_user sess (args (spec j)).

Definition call_ok (sess : option string) (c : string * list value) : Prop :=
  c.1 ∈ client_methods ∧ to_user sess c.2.

(** The jobs held and the calls made so far are of that kind. *)
Definition addressed (sess : option string) (s : State) : Prop :=
  session s = sess ∧ actor s = User ∧
  Forall (job_ok sess) (held s) ∧
  Forall (call_ok sess) (client_calls (trace s)).

(** The warnings a step is to report, on a context whose session is
    [sess]: the deprecation of a generated [WithDelay] variant, and, when
    there is no session, the session-missing warning of the operation
    called; [typing] has none of its own and reports the ones of
    [typingOn], at the call, and of [typingOff], when its sleep is over. *)
Definition reported (sess : option string) (l : label) : list string :=
  match l with
  | Do o =>
      match o with
      | SendWithDelay m _ _ => [deprecated (m +:+ "WithDelay")]
      | _ => []
      end ++
      match sess with
      | Some _ => []
      | None =>
          if session_scoped o then [no_session (op_name o)]
          else match o with
               | Typing _ => [no_session "typingOn"]
               | _ => []
               end
      end
  | AnimTimerFired _ =>
      match sess with
      | Some _ => []
      | None => [no_session "typingOff"]
      end
  | _ => []
  end.

(** The options [sendText] passes on: the ones given, if truthy. *)
Definition passed_on (options : option value) : option value :=
  o ← options; if truthy o then Some o else None.

(** The job an operation asks the queue for, on a context whose session has
    the user id [uid] and whose default message delay is [d]. *)
Definition job_of (uid : string) (d : Z) (o : Op) : option JobSpec :=
  match o with
  | SendText text options => Some (text_job uid text (passed_on options) d)
  | SendTextWithDelay d' text => Some (text_job uid text None d')
  | Send m a => Some (send_job m uid a d)
  | SendWithDelay m d' rest => Some (send_job m uid rest d')
  | Enqueue job => Some job
  | TypingOn | TypingOff | Typing _ | SetMessageDelay _ => None
  end.

(** The default message delay after a step. *)
Definition delay_after (d : Z) (l : label) : Z :=
  match l with
  | Do (SetMessageDelay d') => d'
  | _ => d
  end.

(** The jobs the calls of a run ask for, in the order of the calls, each
    with the default delay in force at its call. *)
Fixpoint requested (uid : string) (d : Z) (ls : list label) : list JobSpec :=
  match ls with
  | [] => []
  | l :: ls' =>
      match l with
      | Do o => option_list (job_of uid d o)
      | _ => []
      end ++ requested uid (delay_after d l) ls'
  end.

(** ** Vocabulary of the statements about the promise of [typing] *)

(** What an activation of [typing] awaits: the promise of a call on the
    client when there is a session, and a promise the context resolved
    itself when there is none. *)
Definition wait_ok (s : State) (w : pref) : Prop :=
  match session s, w with
  | Some _, Client _ => True
  | None, Own p => deferreds s !! p = Some (Settled (Resolved VUndef))
  | _, _ => False
  end.

Definition waits_ok (s : State) : Prop :=
  ∀ k tp, typings s !! k = Some tp →
    match tp with
    | AwaitOn _ w | AwaitOff w => wait_ok s w
    | AwaitSleep _ _ => True
    end.

(** What [await this.typingOn()] and [await this.typingOff()] come back
    with when the client settles its call with [r]: with [r] when there is
    a session, and with undefined when there is none, no call having been
    made. *)
Definition indicator_outcome (sess : option string) (r : outcome) : outcome :=
  match sess with
  | Some _ => r
  | None => Resolved VUndef
  end.

(** What the promise of an [async] method whose last [await] came back with
    [r] settles with: the method returns nothing, or rethrows. *)
Definition async_result (r : outcome) : outcome :=
  match r with
  | Resolved _ => Resolved VUndef
  | Rejected e => Rejected e
  end.

(** The steps that bring the activation [k] of [typing], in the position
    [tp] at time [t], to its end when the client resolves the calls. *)
Definition see_typing_through (k : nat) (tp : TypingPhase) (t : Z)
  : list label :=
  match tp with
  | AwaitOn ms _ =>
      [AnimOnSettled k (Resolved VUndef); Tick (Z.max 0 ms);
       AnimTimerFired k; AnimOffSettled k (Resolved VUndef)]
  | AwaitSleep ms since =>
      [Tick (Z.max 0 (since + ms - t)); AnimTimerFired k;
       AnimOffSettled k (Resolved VUndef)]
  | AwaitOff _ => [AnimOffSettled k (Resolved VUndef)]
  end.

(** A promise of a context without a session: resolved with undefined, or
    the pending promise of an activation of [typing] that is under way. *)
Definition resolved_or_animating (s : State) : Prop :=
  ∀ p d, deferreds s !! p = Some d →
    d = Settled (Resolved VUndef) ∨ (d = Pending ∧ is_Some (typings s !! p)).

(** A context without a session has nothing to do with its queue or with
    the client. *)
Definition inert (s : State) : Prop :=
  session s = None ∧ actor s = User ∧ phase s = Idle ∧ queue s = [] ∧
  enqueued (trace s) = [] ∧ client_calls (trace s) = [] ∧
  resolved_or_animating s.

(** ** Vocabulary of the statements about time *)

(** The job on whose behalf the queue made an entry. *)
Definition job_of_origin (o : origin) : option nat :=
  match o with
  | HookBefore p | Running p | HookAfter p => Some p
  | User | Animation _ => None
  end.






(** ** Vocabulary of the statements about the callbacks *)

(** A callback is called by the queue, for a job, and by nothing else. *)
Definition told_by_queue (e : entry) : Prop :=
  match what e with
  | Notified _ _ => by_queue e = true
  | _ => True
  end.

(** What the caller of the job of an episode is told: the outcome of the
    action, on the promise of the job. *)
Definition delivery (ep : Episode) : nat * outcome :=
  (deferred (ep_job ep), ep_outcome ep).

(* ================================================================== *)
(** * Proofs *)

(** ** Reading a trace that grows at its end *)

Lemma omap_snoc {A B} (f : A → option B) (l : list A) (x : A) :
  omap f (l ++ [x]) = omap f l ++ option_list (f x).
Proof.
  rewrite omap_app. simpl. by destruct (f x).
Qed.

Lemma warnings_snoc tr e :
  warnings (tr ++ [e]) =
  warnings tr ++ match what e with Warned msg => [msg] | _ => [] end.
Proof. unfold warnings. rewrite omap_snoc. by destruct (what e). Qed.

Lemma client_calls_snoc tr e :
  client_calls (tr ++ [e]) =
  client_calls tr ++ match what e with Called m a => [(m, a)] | _ => [] end.
Proof. unfold client_calls. rewrite omap_snoc. by destruct (what e). Qed.

Lemma enqueued_snoc tr e :
  enqueued (tr ++ [e]) =
  enqueued tr ++ match what e with Enqueued j => [j] | _ => [] end.
Proof. unfold enqueued. rewrite omap_snoc. by destruct (what e). Qed.

Lemma notified_snoc tr e :
  notified (tr ++ [e]) =
  notified tr ++ match what e with Notified p r => [(p, r)] | _ => [] end.
Proof. unfold notified. rewrite omap_snoc. by destruct (what e). Qed.

Lemma queue_trace_snoc tr e :
  queue_trace (tr ++ [e]) =
  queue_trace tr ++ (if by_queue e then [e] else []).
Proof.
  unfold queue_trace. rewrite filter_app. f_equal.
  rewrite filter_cons, filter_nil. destruct (by_queue e); by case_decide.
Qed.

Ltac trace_simpl :=
  rewrite ?warnings_snoc, ?client_calls_snoc, ?enqueued_snoc,
    ?notified_snoc, ?queue_trace_snoc;
  cbn [what who time by_queue]; rewrite ?app_nil_r.

(** Symbolic execution of the monadic code on a state given field by field. *)
Ltac ctx_eval :=
  cbn beta iota zeta delta
    [app id ret bind exec get modify emit as_actor warning sleep client_call
     new_promise promise_resolve settle typingOn typingOff
     beforeEach_hook after_hook indicators default
     DelayableJobQueue.process_next DelayableJobQueue.enqueue
     DelayableJobQueue.invoke DelayableJobQueue.settled
     DelayableJobQueue.finish
     setMessageDelay _enqueue sendText sendTextWithDelay send sendWithDelay
     typing typing_on_settled typing_woke typing_off_settled returning call
     set_messageDelay set_queue set_phase set_typings set_deferreds set_now
     set_actor set_trace
     session messageDelay queue phase typings deferreds now actor trace
     fst snd spec deferred method args delay showIndicators
     time who what].

Lemma _enqueue_accepted js s : accepted js s (_enqueue js s).
Proof.
  destruct s as [sess md q ph ty ds t a tr], js as [m ar d ind].
  unfold accepted, held.
  destruct ph as [|j0 t0|j0|j0 r0], q as [|[[m1 a1 d1 i1] p1] q];
    try destruct ind as [[]|]; try destruct i1 as [[]|]; try destruct sess;
    ctx_eval; trace_simpl;
    (split_and!; [done | | done | done]);
    first [by eexists [] ; rewrite app_nil_r | by eexists [_]].
Qed.

(** ** Steps as rules *)

Lemma step_Step s l s' : step s l = Some s' ↔ Step s l s'.
Proof.
  split.
  - unfold step. destruct l as [o| ms | | r | | k r | k | k r ].
    + destruct (defined o) eqn:Hdef; [|done]. intros [= <-]. by constructor.
    + destruct (0 <=? ms)%Z eqn:Hms; [|done]. intros [= <-].
      constructor. by apply Z.leb_le.
    + destruct (phase s) as [|j since|j|j r] eqn:Hph; try done.
      destruct (since + delay (spec j) <=? now s)%Z eqn:Hdue; [|done].
      intros [= <-]. apply (Step_timer s j since); [done|by apply Z.leb_le].
    + destruct (phase s) as [|j since|j|j r0] eqn:Hph; try done.
      intros [= <-]. by constructor.
    + destruct (phase s) as [|j since|j|j r0] eqn:Hph; try done.
      intros [= <-]. by constructor.
    + destruct (typings s !! k) as [[ms w|ms since|w]|] eqn:Hk; try done.
      destruct (awaited s w r) as [r'|] eqn:Hr; [|done]. intros [= <-].
      by apply (Step_typing_on s k ms w r r').
    + destruct (typings s !! k) as [[ms w|ms since|w]|] eqn:Hk; try done.
      destruct (since + ms <=? now s)%Z eqn:Hdue; [|done]. intros [= <-].
      apply (Step_typing_timer s k ms since); [done|by apply Z.leb_le].
    + destruct (typings s !! k) as [[ms w|ms since|w]|] eqn:Hk; try done.
      destruct (awaited s w r) as [r'|] eqn:Hr; [|done]. intros [= <-].
      by apply (Step_typing_off s k w r r').
  - intros [o Hdef|ms Hms|j since Hph Hdue|j r Hph|j r Hph
           |k ms w r r' Hk Hr|k ms since Hk Hdue|k w r r' Hk Hr]; unfold step.
    + by rewrite Hdef.
    + by rewrite (proj2 (Z.leb_le _ _) Hms).
    + by rewrite Hph, (proj2 (Z.leb_le _ _) Hdue).
    + by rewrite Hph.
    + by rewrite Hph.
    + by rewrite Hk, Hr.
    + by rewrite Hk, (proj2 (Z.leb_le _ _) Hdue).
    + by rewrite Hk, Hr.
Qed.

(** Case analysis on the rule of a step. *)
Ltac by_rule Hstep :=
  apply step_Step in Hstep;
  destruct Hstep as [o Hdef|ms Hms|j since Hph Hdue|j r Hph|j r Hph
                    |k ms w r r' Hk Hr|k ms since Hk Hdue|k w r r' Hk Hr].

(** The state, field by field. *)
Ltac open_state s :=
  destruct s as [sess md q ph ty ds t a tr];
  cbn [session messageDelay queue phase typings deferreds now actor trace]
    in *;
  subst.

(** ** Settled promises stay settled *)

Lemma keeps_settled_refl ds : keeps_settled ds ds.
Proof. by intros p r. Qed.

Lemma keeps_settled_trans ds1 ds2 ds3 :
  keeps_settled ds1 ds2 → keeps_settled ds2 ds3 → keeps_settled ds1 ds3.
Proof. intros H12 H23 p r Hp. eauto. Qed.

Lemma keeps_settled_app ds more : keeps_settled ds (ds ++ more).
Proof. intros p r Hp. by apply lookup_app_l_Some. Qed.

Lemma keeps_settled_insert ds p r :
  ds !! p = Some Pending → keeps_settled ds (<[p := Settled r]> ds).
Proof.
  intros Hp q r' Hq. destruct (decide (p = q)) as [->|Hne].
  - congruence.
  - by rewrite list_lookup_insert_ne.
Qed.

Ltac keeps_settled_tac :=
  repeat first
    [ apply keeps_settled_refl
    | match goal with
      | |- keeps_settled ?ds (?ds' ++ _) =>
          apply (keeps_settled_trans ds ds'); [|apply keeps_settled_app]
      | |- keeps_settled ?ds match ?ds' !! ?p with _ => _ end =>
          apply (keeps_settled_trans ds ds');
          [|let H := fresh "H" in
            destruct (ds' !! p) as [[|?]|] eqn:H;
            [by apply keeps_settled_insert | apply keeps_settled_refl
            | apply keeps_settled_refl]]
      end ].

Lemma step_keeps_settled s l s' :
  step s l = Some s' → keeps_settled (deferreds s) (deferreds s').
Proof.
  intros Hstep. by_rule Hstep; open_state s.
  - destruct o as [text [o|] | d text | | | ms | m ar | m d rest | d | js].
    all: destruct sess, ph, q as [|[[m1 a1 d1 [[]|]] p1] q];
      try destruct (truthy o); try destruct js as [? ? ? [[]|]];
      ctx_eval; keeps_settled_tac.
  - apply keeps_settled_refl.
  - ctx_eval. apply keeps_settled_refl.
  - destruct j as [[m1 a1 d1 [[]|]] p1], sess; ctx_eval; keeps_settled_tac.
  - destruct j as [js p], sess, q as [|[[m1 a1 d1 [[]|]] p1] q];
      ctx_eval; keeps_settled_tac.
  - destruct r'; ctx_eval; keeps_settled_tac.
  - destruct sess; ctx_eval; keeps_settled_tac.
  - destruct r'; ctx_eval; keeps_settled_tac.
Qed.

Lemma run_keeps_settled ls : ∀ s s',
  run s ls = Some s' → keeps_settled (deferreds s) (deferreds s').
Proof.
  induction ls as [|l ls IH]; intros s s'; simpl.
  - intros [= <-]. apply keeps_settled_refl.
  - destruct (step s l) as [s1|] eqn:Hstep; [|done]. simpl. intros Hrun.
    eapply keeps_settled_trans; [by eapply step_keeps_settled | by apply IH].
Qed.


(** ** What a step leaves alone *)

Lemma step_session s l s' : step s l = Some s' → session s' = session s.
Proof.
  intros Hstep. by_rule Hstep; open_state s.
  - destruct o as [text [o|] | d text | | | ms | m ar | m d rest | d | js].
    all: destruct sess, ph, q as [|[[m1 a1 d1 [[]|]] p1] q];
      try destruct (truthy o); try destruct js as [? ? ? [[]|]];
      by ctx_eval.
  - done.
  - done.
  - by destruct j as [[m1 a1 d1 [[]|]] p1], sess.
  - by destruct j as [js p], sess, q as [|[[m1 a1 d1 [[]|]] p1] q].
  - by destruct r'.
  - by destruct sess.
  - by destruct r'.
Qed.

Lemma run_session ls : ∀ s s', run s ls = Some s' → session s' = session s.
Proof.
  induction ls as [|l ls IH]; intros s s'; simpl.
  - by intros [= <-].
  - destruct (step s l) as [s1|] eqn:Hstep; [|done]. simpl. intros Hrun.
    rewrite (IH _ _ Hrun). by eapply step_session.
Qed.

(** The default delay changes by [setMessageDelay] only. *)
Lemma step_messageDelay s l s' :
  step s l = Some s' → (∀ d, l ≠ Do (SetMessageDelay d)) →
  messageDelay s' = messageDelay s.
Proof.
  intros Hstep Hl. by_rule Hstep; open_state s.
  - destruct o as [text [o|] | d text | | | ms | m ar | m d rest | d | js].
    all: try (by destruct (Hl d)).
    all: destruct sess, ph, q as [|[[m1 a1 d1 [[]|]] p1] q];
      try destruct (truthy o); try destruct js as [? ? ? [[]|]];
      by ctx_eval.
  - done.
  - done.
  - by destruct j as [[m1 a1 d1 [[]|]] p1], sess.
  - by destruct j as [js p], sess, q as [|[[m1 a1 d1 [[]|]] p1] q].
  - by destruct r'.
  - by destruct sess.
  - by destruct r'.
Qed.

Lemma run_messageDelay ls : ∀ s s',
  run s ls = Some s' → (∀ d, Do (SetMessageDelay d) ∉ ls) →
  messageDelay s' = messageDelay s.
Proof.
  induction ls as [|l ls IH]; intros s s'; simpl.
  - by intros [= <-].
  - destruct (step s l) as [s1|] eqn:Hstep; [|done]. simpl. intros Hrun Hls.
    rewrite (IH _ _ Hrun).
    + eapply step_messageDelay; [done|]. intros d ->. apply (Hls d). left.
    + intros d Hd. apply (Hls d). by right.
Qed.

(** ** Telling the warnings apart *)

Lemma string_length_app (s1 s2 : string) :
  String.length (s1 +:+ s2) = String.length s1 + String.length s2.
Proof. induction s1 as [|c s1 IH]; simpl; [done | by rewrite IH]. Qed.

Lemma ends_with_unfold (suffix s : string) :
  ends_with suffix s =
  if String.eqb s suffix then true
  else match s with
       | EmptyString => false
       | String _ s' => ends_with suffix s'
       end.
Proof. by destruct s. Qed.

Lemma ends_with_app (suffix s : string) : ends_with suffix (s +:+ suffix) = true.
Proof.
  induction s as [|c s IH]; rewrite ends_with_unfold.
  - change (EmptyString +:+ suffix) with suffix. by rewrite String.eqb_refl.
  - change (String c s +:+ suffix) with (String c (s +:+ suffix)).
    cbv beta iota. rewrite IH. by destruct (String.eqb _ _).
Qed.

Lemma ends_with_tail (suffix tail s : string) :
  (String.length suffix ≤ String.length tail)%nat →
  ends_with suffix (s +:+ tail) = ends_with suffix tail.
Proof.
  intros Hlen. induction s as [|c s IH]; [done|].
  rewrite ends_with_unfold.
  change (String c s +:+ tail) with (String c (s +:+ tail)).
  cbv beta iota. rewrite IH.
  destruct (String.eqb (String c (s +:+ tail)) suffix) eqn:Heq; [|done].
  apply String.eqb_eq in Heq. apply (f_equal String.length) in Heq.
  simpl in Heq. rewrite string_length_app in Heq. lia.
Qed.

Lemma deprecated_is_deprecation name : is_deprecation (deprecated name) = true.
Proof. apply ends_with_app. Qed.

Lemma no_session_is_not_deprecation name :
  is_deprecation (no_session name) = false.
Proof.
  unfold is_deprecation, no_session. rewrite ends_with_tail.
  - by vm_compute.
  - simpl. lia.
Qed.

Lemma deprecations_snoc tr e :
  deprecations (tr ++ [e]) =
  deprecations tr ++
  match what e with
  | Warned msg => if is_deprecation msg then [msg] else []
  | _ => []
  end.
Proof.
  unfold deprecations. rewrite warnings_snoc, filter_app. f_equal.
  destruct (what e) as [msg| | | | | |]; try done.
  rewrite filter_cons, filter_nil. destruct (is_deprecation msg); by case_decide.
Qed.

(** ** Calls without a session *)

Lemma call_without_session o s :
  session_scoped o = true → session s = None →
  ∃ p, (call o s).1 = Some p ∧
    warned_noop
      (match o with
       | SendWithDelay m _ _ => [deprecated (m +:+ "WithDelay")]
       | _ => []
       end ++ [no_session (op_name o)])
      s (p, (call o s).2).
Proof.
  destruct s as [sess md q ph ty ds t a tr]. simpl. intros Ho ->.
  exists (Own (length ds)). unfold warned_noop.
  destruct o as [text [o|] | d text | | | ms | m ar | m d rest | d | js];
    try done; ctx_eval; trace_simpl; by rewrite <- ?app_assoc.
Qed.

(** C2. Every session-scoped operation ([sendText], [sendTextWithDelay],
    [typingOn], [typingOff], the generated send methods and their
    [WithDelay] variants), called on a context without a session, reports
    the session-missing warning that names it (after the deprecation
    warning, for a [WithDelay] variant), makes no call to the client,
    enqueues nothing and returns a fresh promise that is resolved and that,
    along every further run of the context, stays resolved. *)
Theorem session_missing_is_a_warned_noop (o : Op) (s : State) :
  session_scoped o = true →
  session s = None →
  ∃ p,
    (call o s).1 = Some p ∧
    warned_noop
      (match o with
       | SendWithDelay m _ _ => [deprecated (m +:+ "WithDelay")]
       | _ => []
       end ++ [no_session (op_name o)])
      s (p, (call o s).2) ∧
    ∀ ls s', run (call o s).2 ls = Some s' →
      deferreds s' !! length (deferreds s) = Some (Settled (Resolved VUndef)).
Proof.
  intros Ho Hs. destruct (call_without_session o s Ho Hs) as (p & Hp & Hnoop).
  exists p. split_and!; [done..|]. intros ls s' Hrun.
  destruct Hnoop as (_ & Hds & _). cbn [snd] in Hds.
  apply (run_keeps_settled _ _ _ Hrun). rewrite Hds.
  by rewrite lookup_app_r, Nat.sub_diag.
Qed.

Lemma session_missing_is_a_warned_noop_witness :
  let o := SendWithDelay "sendImage" 250 [VStr "cat.png"] in
  let s := constructor None in
  session_scoped o = true ∧
  session s = None ∧
  ∃ p,
    (call o s).1 = Some p ∧
    warned_noop
      ["sendImageWithDelay is deprecated.";
       "sendImageWithDelay: should not be called in context without session"]
      s (p, (call o s).2) ∧
    ∀ ls s', run (call o s).2 ls = Some s' →
      deferreds s' !! length (deferreds s) = Some (Settled (Resolved VUndef)).
Proof.
  intros o s. split; [reflexivity|]. split; [reflexivity|].
  apply (session_missing_is_a_warned_noop o s); reflexivity.
Defined.

(** ** Calls with a session *)

Lemma reachable_session sess ls s :
  run (constructor sess) ls = Some s → session s = sess.
Proof. intros Hrun. by rewrite (run_session _ _ _ Hrun). Qed.

(** What the queue calls when the timer of a job's before hook fires. *)
Lemma invoke_calls_the_method s j since s' :
  phase s = Sleeping j since →
  step s TimerFired = Some s' →
  trace s' = trace s ++
    [Entry (now s) (HookBefore (deferred j)) Woke;
     Entry (now s) (Running (deferred j))
       (Called (method (spec j)) (args (spec j)))].
Proof.
  destruct s as [sess md q ph ty ds t a tr]. simpl. intros ->. simpl.
  destruct (since + delay (spec j) <=? t)%Z; [|done]. intros [= <-].
  ctx_eval. by rewrite <- app_assoc.
Qed.

(** C3. On a context with a session, [sendText(text, options?)] enqueues
    one job: method [sendText] of the client, arguments the session's user
    id and the text, followed by the options exactly when they are given,
    the delay the context's default message delay at the time of the call,
    indicators requested.  The default delay is 1000 as long as no
    [setMessageDelay] has changed it, and when the queue invokes the job it
    calls the client's [sendText] on just these arguments. *)
Theorem sendText_enqueues_text_job
    (uid : string) (ls : list label) (s : State)
    (text : string) (options : option value) :
  run (constructor (Some uid)) ls = Some s →
  well_typed_options options →
  let job := text_job uid text options (messageDelay s) in
  accepted job s (sendText text options s) ∧
  showIndicators job = Some true ∧
  ((∀ d, Do (SetMessageDelay d) ∉ ls) → delay job = 1000%Z) ∧
  (∀ d, messageDelay (exec (setMessageDelay d) s) = d) ∧
  ∀ s1 p since s2,
    phase s1 = Sleeping (mkJob job p) since →
    step s1 TimerFired = Some s2 →
    trace s2 = trace s1 ++
      [Entry (now s1) (HookBefore p) Woke;
       Entry (now s1) (Running p)
         (Called "sendText" ([VStr uid; VStr text] ++ option_list options))].
Proof.
  intros Hrun Hopt job. split_and!.
  - pose proof (reachable_session _ _ _ Hrun) as Hs.
    assert (sendText text options s = _enqueue job s) as ->;
      [|apply _enqueue_accepted].
    subst job. destruct s as [sess md q ph ty ds t a tr]. simpl in Hs.
    subst sess.
    destruct options as [o|]; [|done].
    simpl in Hopt. destruct o; try done.
  - done.
  - intros Hls. simpl. by rewrite (run_messageDelay _ _ _ Hrun Hls).
  - done.
  - intros s1 p since s2 Hph Hstep.
    by rewrite (invoke_calls_the_method _ _ _ _ Hph Hstep).
Qed.

Lemma sendText_enqueues_text_job_witness :
  let s := constructor (Some "u1") in
  let job := text_job "u1" "hi" None 1000 in
  run (constructor (Some "u1")) [] = Some s ∧
  well_typed_options None ∧
  accepted job s (sendText "hi" None s) ∧
  showIndicators job = Some true ∧
  ((∀ d, Do (SetMessageDelay d) ∉ []) → delay job = 1000%Z) ∧
  (∀ d, messageDelay (exec (setMessageDelay d) s) = d) ∧
  ∀ s1 p since s2,
    phase s1 = Sleeping (mkJob job p) since →
    step s1 TimerFired = Some s2 →
    trace s2 = trace s1 ++
      [Entry (now s1) (HookBefore p) Woke;
       Entry (now s1) (Running p) (Called "sendText" [VStr "u1"; VStr "hi"])].
Proof.
  intros s job. split; [reflexivity|]. split; [exact I|].
  apply (sendText_enqueues_text_job "u1" [] s "hi" None); [reflexivity|exact I].
Defined.

(** C6. On a context with a session, [sendTextWithDelay(delay, text)] is
    [sendText(text)] run with [delay] in the place of the default message
    delay: it enqueues the job with method [sendText], arguments the
    session's user id and the text and nothing else, the given delay,
    indicators requested. *)
Theorem sendTextWithDelay_is_sendText_with_delay
    (uid : string) (ls : list label) (s : State) (d : Z) (text : string) :
  run (constructor (Some uid)) ls = Some s →
  let job := text_job uid text None d in
  sendTextWithDelay d text s = with_delay d (sendText text None) s ∧
  accepted job s (sendTextWithDelay d text s) ∧
  args job = [VStr uid; VStr text] ∧
  delay job = d ∧
  ∀ s1 p since s2,
    phase s1 = Sleeping (mkJob job p) since →
    step s1 TimerFired = Some s2 →
    trace s2 = trace s1 ++
      [Entry (now s1) (HookBefore p) Woke;
       Entry (now s1) (Running p) (Called "sendText" [VStr uid; VStr text])].
Proof.
  intros Hrun job. pose proof (reachable_session _ _ _ Hrun) as Hs.
  split_and!; try done.
  - destruct s as [sess md q ph ty ds t a tr]. simpl in Hs. subst sess.
    unfold with_delay.
    destruct ph, q as [|[[m1 a1 d1 [[]|]] p1] q]; ctx_eval; done.
  - assert (sendTextWithDelay d text s = _enqueue job s) as ->;
      [|apply _enqueue_accepted].
    destruct s as [sess md q ph ty ds t a tr]. simpl in Hs. by subst sess.
  - intros s1 p since s2 Hph Hstep.
    by rewrite (invoke_calls_the_method _ _ _ _ Hph Hstep).
Qed.

Lemma sendTextWithDelay_is_sendText_with_delay_witness :
  let s := constructor (Some "u1") in
  let job := text_job "u1" "hi" None 250 in
  run (constructor (Some "u1")) [] = Some s ∧
  sendTextWithDelay 250 "hi" s = with_delay 250 (sendText "hi" None) s ∧
  accepted job s (sendTextWithDelay 250 "hi" s) ∧
  args job = [VStr "u1"; VStr "hi"] ∧
  delay job = 250%Z ∧
  ∀ s1 p since s2,
    phase s1 = Sleeping (mkJob job p) since →
    step s1 TimerFired = Some s2 →
    trace s2 = trace s1 ++
      [Entry (now s1) (HookBefore p) Woke;
       Entry (now s1) (Running p) (Called "sendText" [VStr "u1"; VStr "hi"])].
Proof.
  intros s job. split; [reflexivity|].
  apply (sendTextWithDelay_is_sendText_with_delay "u1" [] s 250 "hi").
  reflexivity.
Defined.

(** An argument in the place of [options] that is not an object and is
    falsy is dropped: the test of the source is on truthiness. *)
Remark sendText_drops_falsy_options (uid text : string) (o : value) (s : State) :
  session s = Some uid → truthy o = false →
  sendText text (Some o) s = sendText text None s.
Proof.
  destruct s as [sess md q ph ty ds t a tr]. simpl. intros -> Ho.
  unfold sendText, bind, get. cbn [session messageDelay]. by rewrite Ho.
Qed.

(** ** The generated methods *)

Lemma sendWithDelay_deprecations m d rest s :
  deprecations (trace (sendWithDelay m d rest s).2) =
  deprecations (trace s) ++ [deprecated (m +:+ "WithDelay")].
Proof.
  pose proof (deprecated_is_deprecation (m +:+ "WithDelay")) as Hdep.
  pose proof (no_session_is_not_deprecation (m +:+ "WithDelay")) as Hno.
  pose proof (no_session_is_not_deprecation "typingOn") as Hon.
  destruct s as [sess md q ph ty ds t a tr].
  destruct sess, ph, q as [|[[m1 a1 d1 [[]|]] p1] q]; ctx_eval;
    rewrite ?deprecations_snoc; cbn [what]; rewrite ?Hdep, ?Hno, ?Hon;
    by rewrite ?app_nil_r.
Qed.

(** C7. Every call of a generated [WithDelay] variant reports exactly one
    deprecation warning, as the first thing it does.  After it, on a context
    with a session, the variant is the base method run with the leading
    argument in the place of the default message delay: both enqueue the
    job with the same method, arguments and indicators, the variant with the
    explicit delay.  On a context without a session both are no-ops that
    report a session-missing warning under their own name. *)
Theorem generated_WithDelay_variant
    (m : string) (d : Z) (rest : list value) (s : State) :
  let dep := deprecated (m +:+ "WithDelay") in
  deprecations (trace (sendWithDelay m d rest s).2) =
    deprecations (trace s) ++ [dep] ∧
  deprecations (trace (send m rest s).2) = deprecations (trace s) ∧
  match session s with
  | Some uid =>
      sendWithDelay m d rest s
        = (warning dep >> with_delay d (send m rest)) s ∧
      accepted (send_job m uid rest d)
        (exec (warning dep) s) (sendWithDelay m d rest s) ∧
      accepted (send_job m uid rest (messageDelay s)) s (send m rest s) ∧
      warnings (trace (sendWithDelay m d rest s).2) =
        warnings (trace s) ++ [dep]
  | None =>
      warned_noop [dep; no_session (m +:+ "WithDelay")]
        s (sendWithDelay m d rest s) ∧
      warned_noop [no_session m] s (send m rest s)
  end.
Proof.
  intros dep. split; [apply sendWithDelay_deprecations|]. split.
  - pose proof (no_session_is_not_deprecation m) as Hno.
    pose proof (no_session_is_not_deprecation "typingOn") as Hon.
    destruct s as [sess md q ph ty ds t a tr].
    destruct sess, ph, q as [|[[m1 a1 d1 [[]|]] p1] q]; ctx_eval;
      rewrite ?deprecations_snoc; cbn [what]; rewrite ?Hno, ?Hon;
      by rewrite ?app_nil_r.
  - destruct (session s) as [uid|] eqn:Hs.
    + split_and!.
      * destruct s as [sess md q ph ty ds t a tr]. simpl in Hs. subst sess.
        unfold with_delay.
        destruct ph, q as [|[[m1 a1 d1 [[]|]] p1] q]; ctx_eval; done.
      * assert (sendWithDelay m d rest s
                = _enqueue (send_job m uid rest d) (exec (warning dep) s))
          as ->; [|apply _enqueue_accepted].
        destruct s as [sess md q ph ty ds t a tr]. simpl in Hs. by subst sess.
      * assert (send m rest s
                = _enqueue (send_job m uid rest (messageDelay s)) s)
          as ->; [|apply _enqueue_accepted].
        destruct s as [sess md q ph ty ds t a tr]. simpl in Hs. by subst sess.
      * destruct s as [sess md q ph ty ds t a tr]. simpl in Hs. subst sess.
        destruct ph, q as [|[[m1 a1 d1 [[]|]] p1] q]; ctx_eval;
          trace_simpl; done.
    + destruct s as [sess md q ph ty ds t a tr]. simpl in Hs. subst sess.
      unfold warned_noop. split; ctx_eval; trace_simpl;
        by rewrite <- ?app_assoc.
Qed.

Lemma string_app_assoc (s1 s2 s3 : string) :
  (s1 +:+ s2) +:+ s3 = s1 +:+ (s2 +:+ s3).
Proof.
  induction s1 as [|c s1 IH]; [done|].
  change (String c ((s1 +:+ s2) +:+ s3) = String c (s1 +:+ (s2 +:+ s3))).
  by rewrite IH.
Qed.

Ltac no_deprecation :=
  ctx_eval; rewrite ?deprecations_snoc; cbn [what];
  rewrite ?no_session_is_not_deprecation; by rewrite ?app_nil_r.

(** No step but a call of a generated [WithDelay] variant reports a
    deprecation. *)
Lemma step_deprecations s l s' :
  step s l = Some s' → (∀ m d rest, l ≠ Do (SendWithDelay m d rest)) →
  deprecations (trace s') = deprecations (trace s).
Proof.
  intros Hstep Hl. by_rule Hstep; open_state s.
  - destruct o as [text [o|] | d text | | | ms | m ar | m d rest | d | js].
    all: try (by destruct (Hl m d rest)).
    all: destruct sess, ph, q as [|[[m1 a1 d1 [[]|]] p1] q];
      try destruct (truthy o); try destruct js as [? ? ? [[]|]];
      no_deprecation.
  - done.
  - no_deprecation.
  - destruct j as [[m1 a1 d1 [[]|]] p1], sess; no_deprecation.
  - destruct j as [js p], sess, q as [|[[m1 a1 d1 [[]|]] p1] q];
      no_deprecation.
  - destruct r'; no_deprecation.
  - destruct sess; no_deprecation.
  - destruct r'; no_deprecation.
Qed.

Lemma run_deprecations ls : ∀ s s',
  run s ls = Some s' → (∀ m d rest, Do (SendWithDelay m d rest) ∉ ls) →
  deprecations (trace s') = deprecations (trace s).
Proof.
  induction ls as [|l ls IH]; intros s s'; simpl.
  - by intros [= <-].
  - destruct (step s l) as [s1|] eqn:Hstep; [|done]. simpl. intros Hrun Hls.
    rewrite (IH _ _ Hrun).
    + eapply step_deprecations; [done|]. intros m d rest ->.
      apply (Hls m d rest). left.
    + intros m d rest Hin. apply (Hls m d rest). by right.
Qed.

(** C10. [sendTextWithDelay] reports no deprecation warning, with a session
    or without one, and neither does anything else a context does, whatever
    the run, as long as no generated [WithDelay] variant is called; each of
    these reports one on every call. *)
Theorem sendTextWithDelay_is_not_deprecated (d : Z) (text : string) (s : State) :
  deprecations (trace (sendTextWithDelay d text s).2) = deprecations (trace s) ∧
  (∀ m, m ∈ sendMethods → ∀ d' rest,
    deprecations (trace (sendWithDelay m d' rest s).2) =
    deprecations (trace s) ++ [m +:+ "WithDelay is deprecated."]) ∧
  (∀ ls s', run s ls = Some s' →
    (∀ m d' rest, Do (SendWithDelay m d' rest) ∉ ls) →
    deprecations (trace s') = deprecations (trace s)).
Proof.
  split_and!.
  - destruct s as [sess md q ph ty ds t a tr].
    destruct sess, ph, q as [|[[m1 a1 d1 [[]|]] p1] q]; no_deprecation.
  - intros m Hm d' rest. rewrite sendWithDelay_deprecations.
    unfold deprecated. by rewrite string_app_assoc.
  - intros ls s'. apply run_deprecations.
Qed.

(** ** The queue is serial *)

Lemma in_progress_later sess ph t t' cur :
  (t ≤ t')%Z → in_progress sess ph t cur → in_progress sess ph t' cur.
Proof.
  intros Ht. destruct ph as [|j t0|j|j r]; simpl.
  - done.
  - intros [? ->]. split; [lia|done].
  - intros (t0 & t1 & ? & ? & ->). exists t0, t1. split_and!; [lia..|done].
  - intros (t0 & t1 & t2 & ? & ? & ? & ->). exists t0, t1, t2.
    split_and!; [lia..|done].
Qed.

Lemma inv_frame sess s s' : queue_frame s s' → inv sess s → inv sess s'.
Proof.
  intros (Hs & Ha & Hq & Hph & Ht & Htr & Henq).
  intros (Hsess & Hact & done & cur & Hqt & Hcur & Hen & Htimely & Hfin).
  split_and!; [congruence..|]. exists done, cur. unfold serial, held in *.
  rewrite Htr, Henq, Hq, Hph. split_and!; try done.
  - by apply (in_progress_later _ _ (now s)).
  - eapply Forall_impl; [exact Hfin|]. simpl. intros ep ?. lia.
Qed.

Lemma inv_constructor sess : inv sess (constructor sess).
Proof.
  split_and!; [done..|]. exists [], []. by split_and!.
Qed.

Ltac frame_tac :=
  unfold queue_frame; ctx_eval; trace_simpl; split_and!; (done || lia).

(** A call either leaves the queue alone or comes down to [_enqueue]. *)
Lemma exec_returning (m : M pref) s : exec (returning m) s = exec m s.
Proof. unfold exec, returning, bind, ret. by destruct (m s). Qed.

Lemma call_cases o s :
  actor s = User →
  queue_frame s (exec (call o) s) ∨
  ∃ js s0, queue_frame s s0 ∧ exec (call o) s = exec (_enqueue js) s0 ∧
           (public o = true → showIndicators js = Some true).
Proof.
  destruct s as [sess md q ph ty ds t a tr]. simpl. intros ->.
  destruct o as [text options | d text | | | ms | m ar | m d rest | d | js];
    destruct sess as [uid|].
  all: try (left; frame_tac).
  all: right; cbn [call]; rewrite exec_returning.
  - exists {| method := "sendText";
              args := match options with
                      | Some o => if truthy o then [VStr uid; VStr text; o]
                                  else [VStr uid; VStr text]
                      | None => [VStr uid; VStr text]
                      end;
              delay := md; showIndicators := Some true |}.
    eexists. split_and!; [|reflexivity|done]. frame_tac.
  - exists (text_job uid text None d).
    eexists. split_and!; [|reflexivity|done]. frame_tac.
  - exists (send_job m uid ar md).
    eexists. split_and!; [|reflexivity|done]. frame_tac.
  - exists (send_job m uid rest d).
    eexists (exec (warning (deprecated (m +:+ "WithDelay"))) _).
    split_and!; [|reflexivity|done]. frame_tac.
  - exists js. eexists. split_and!; [|reflexivity|done]. frame_tac.
  - exists js. eexists. split_and!; [|reflexivity|done]. frame_tac.
Qed.

Lemma inv_enqueue sess js s : inv sess s → inv sess (exec (_enqueue js) s).
Proof.
  destruct s as [sess0 md q ph ty ds t a tr].
  intros (Hsess & Hact & done & cur & Hqt & Hcur & Hen & Htimely & Hfin).
  simpl in Hsess, Hact. subst sess0 a. unfold held in Hen.
  cbn [trace phase queue now] in Hqt, Hcur, Hen, Hfin.
  destruct ph as [|j0 t0|j0|j0 r0].
  - (* idle: the head of the queue is started *)
    simpl in Hcur. subst cur. rewrite app_nil_r in Hqt.
    destruct q as [|j1 q].
    + destruct js as [m ar d [[]|]], sess as [uid|];
        unfold inv, serial, held; ctx_eval; trace_simpl.
      all: split_and!; [done..|]; exists done; eexists.
      all: rewrite Hqt, Hen; split_and!; [|split; [|reflexivity]|..];
        try done; try lia; by rewrite <- ?app_assoc.
    + destruct j1 as [[m ar d [[]|]] p1], sess as [uid|];
        unfold inv, serial, held; ctx_eval; trace_simpl.
      all: split_and!; [done..|]; exists done; eexists.
      all: rewrite Hqt, Hen; split_and!; [|split; [|reflexivity]|..];
        try done; try lia; by rewrite <- ?app_assoc.
  - unfold inv, serial, held; ctx_eval; trace_simpl.
    split_and!; [done..|]. exists done, cur.
    rewrite Hqt, Hen. split_and!; try done. by rewrite <- !app_assoc.
  - unfold inv, serial, held; ctx_eval; trace_simpl.
    split_and!; [done..|]. exists done, cur.
    rewrite Hqt, Hen. split_and!; try done. by rewrite <- !app_assoc.
  - unfold inv, serial, held; ctx_eval; trace_simpl.
    split_and!; [done..|]. exists done, cur.
    rewrite Hqt, Hen. split_and!; try done. by rewrite <- !app_assoc.
Qed.

Lemma flat_map_snoc {A B} (f : A → list B) (l : list A) (x : A) :
  flat_map f (l ++ [x]) = flat_map f l ++ f x.
Proof. by rewrite flat_map_app; simpl; rewrite app_nil_r. Qed.

(** The steps of the activations of [typing] leave the queue alone. *)
Lemma typing_step_frame s l s' :
  typing_label l = true → actor s = User →
  step s l = Some s' → queue_frame s s'.
Proof.
  intros Hl Hact Hstep. by_rule Hstep; try done; open_state s.
  - destruct o; try done. destruct sess; frame_tac.
  - destruct r'; frame_tac.
  - destruct sess; frame_tac.
  - destruct r'; frame_tac.
Qed.

(** The sleep of the before hook is over. *)
Lemma inv_invoke sess s j since :
  phase s = Sleeping j since → (since + delay (spec j) ≤ now s)%Z →
  inv sess s → inv sess (exec (DelayableJobQueue.invoke j) s).
Proof.
  destruct s as [sess0 md q ph ty ds t a tr]. simpl. intros -> Hdue.
  intros (Hsess & Hact & done & cur & Hqt & Hcur & Hen & Htimely & Hfin).
  simpl in Hsess, Hact. subst sess0 a. unfold held in Hen.
  cbn [trace phase queue now] in Hqt, Hcur, Hen, Hfin.
  destruct Hcur as [Ht0 ->].
  unfold inv, serial, held; ctx_eval; trace_simpl.
  split_and!; [done..|].
  exists done, (before_part sess j since ++ invoke_part j t).
  rewrite Hqt, Hen. split_and!; try done.
  - by rewrite <- !app_assoc.
  - exists since, t. split_and!; [lia..|done].
Qed.

(** The action settles. *)
Lemma inv_settled sess s j r :
  phase s = Calling j →
  inv sess s → inv sess (exec (DelayableJobQueue.settled after_hook j r) s).
Proof.
  destruct s as [sess0 md q ph ty ds t a tr]. simpl. intros ->.
  intros (Hsess & Hact & done & cur & Hqt & Hcur & Hen & Htimely & Hfin).
  simpl in Hsess, Hact. subst sess0 a. unfold held in Hen.
  cbn [trace phase queue now] in Hqt, Hcur, Hen, Hfin.
  destruct Hcur as (t0 & t1 & Ht0 & Ht1 & ->).
  destruct j as [[m ar d [[]|]] p], sess as [uid|];
    unfold inv, serial, held; ctx_eval; trace_simpl.
  all: split_and!; [done..|]; exists done; eexists.
  all: rewrite Hqt, Hen; split_and!;
    [| exists t0, t1, t; split_and!; [done|done|lia|reflexivity] |..];
    try done; by rewrite <- ?app_assoc.
Qed.

(** The after hook is over: one more episode is complete. *)
Lemma inv_finish sess s j r :
  phase s = Finishing j r →
  inv sess s →
  inv sess (exec (DelayableJobQueue.finish beforeEach_hook j r) s).
Proof.
  destruct s as [sess0 md q ph ty ds t a tr]. simpl. intros ->.
  intros (Hsess & Hact & done & cur & Hqt & Hcur & Hen & Htimely & Hfin).
  simpl in Hsess, Hact. subst sess0 a. unfold held in Hen.
  cbn [trace phase queue now] in Hqt, Hcur, Hen, Hfin.
  destruct Hcur as (t0 & t1 & t2 & Ht0 & Ht1 & Ht2 & ->).
  set (ep := mkEpisode j t0 t1 t2 r t).
  assert (Forall timely (done ++ [ep])) as Htimely'.
  { apply Forall_app. split; [done|]. apply Forall_singleton.
    unfold timely. simpl. lia. }
  assert (Forall (λ ep, (ep_finished ep ≤ t)%Z) (done ++ [ep])) as Hfin'.
  { apply Forall_app. split; [done|]. apply Forall_singleton. simpl. lia. }
  assert (queue_trace tr ++ finish_part j t r
          = flat_map (episode sess) (done ++ [ep])) as Hqt'.
  { rewrite Hqt, flat_map_snoc. unfold episode, ep. simpl.
    by rewrite <- !app_assoc. }
  assert (enqueued tr = (ep_job <$> done ++ [ep]) ++ q) as Hen'.
  { rewrite Hen, fmap_app. simpl. by rewrite <- app_assoc. }
  clearbody ep. clear Hqt Hen Htimely Hfin. unfold finish_part in Hqt'.
  destruct q as [|j1 q].
  - destruct j as [js p]; unfold inv, serial, held; ctx_eval; trace_simpl.
    split_and!; [done..|]. exists (done ++ [ep]), [].
    cbn [deferred] in Hqt'. rewrite Hqt', Hen', !app_nil_r. by split_and!.
  - destruct j as [js p], j1 as [[m ar d [[]|]] p1], sess as [uid|];
      unfold inv, serial, held; ctx_eval; trace_simpl.
    all: split_and!; [done..|]; exists (done ++ [ep]); eexists.
    all: cbn [deferred] in Hqt'.
    all: rewrite <- ?app_assoc;
      rewrite (app_assoc (queue_trace tr)), Hqt', Hen'.
    all: split_and!; [|split; [|reflexivity]|..]; try done; lia.
Qed.

Lemma step_inv sess s l s' : step s l = Some s' → inv sess s → inv sess s'.
Proof.
  intros Hstep Hinv. pose proof Hinv as (_ & Hact & _).
  destruct (typing_label l) eqn:Hl.
  { apply (inv_frame _ s); [|done]. by apply (typing_step_frame _ l). }
  by_rule Hstep; try done.
  - destruct (call_cases o s Hact) as [Hfr|(js & s0 & Hfr & -> & _)].
    + by apply (inv_frame _ s).
    + apply inv_enqueue. by apply (inv_frame _ s).
  - apply (inv_frame _ s); [|done].
    unfold queue_frame. simpl. split_and!; try done. lia.
  - by apply (inv_invoke _ _ _ since).
  - by apply inv_settled.
  - by apply inv_finish.
Qed.

Lemma run_inv sess ls : ∀ s s', run s ls = Some s' → inv sess s → inv sess s'.
Proof.
  induction ls as [|l ls IH]; intros s s'; simpl.
  - by intros [= <-].
  - destruct (step s l) as [s1|] eqn:Hstep; [|done]. simpl. intros Hrun Hinv.
    apply (IH _ _ Hrun). by apply (step_inv _ _ _ _ Hstep).
Qed.

Lemma reachable_inv sess ls s :
  run (constructor sess) ls = Some s → inv sess s.
Proof. intros Hrun. apply (run_inv _ _ _ _ Hrun), inv_constructor. Qed.

(** ** Promises and callbacks *)

Lemma promises_frame s s' : promise_frame s s' → promises_ok s → promises_ok s'.
Proof.
  intros (Hheld & Hnot & Hkeep & Hpend & Hty) (Hnd & Hjobs & Htasks & Hdone).
  unfold promises_ok. rewrite Hheld, Hnot. split_and!.
  - done.
  - intros j Hj. destruct (Hpend _ (Hjobs j Hj)) as [?|[Hk _]]; [done|].
    destruct (Htasks _ Hk) as [_ []]. by apply list_elem_of_fmap_2.
  - intros k Hk. destruct (Hty k Hk) as [Hold|[Hnew Hnew']].
    + destruct (Htasks k Hold) as [Hp Hnin]. split; [|done].
      destruct (Hpend k Hp) as [?|[_ Hnone]]; [done|].
      rewrite Hnone in Hk. by destruct Hk.
    + split; [done|]. intros Hin.
      apply list_elem_of_fmap in Hin as (j & -> & Hj).
      rewrite (Hjobs j Hj) in Hnew. done.
  - intros p r Hp. by apply Hkeep, Hdone.
Qed.

Ltac pframe_tac :=
  unfold promise_frame, held; ctx_eval; trace_simpl;
  split_and!;
  [ done
  | done
  | keeps_settled_tac
  | let p := fresh "p" in let Hp := fresh "Hp" in
    intros p Hp; left;
    first [ exact Hp
          | by apply lookup_app_l_Some
          | by do 2 apply lookup_app_l_Some ]
  | let k := fresh "k" in let Hk := fresh "Hk" in
    intros k Hk;
    first
      [ by left
      | match type of Hk with
        | is_Some (<[?i := _]> _ !! _) =>
            destruct (decide (k = i)) as [->|?];
            [ right; split;
              [ by apply lookup_ge_None_2
              | first [ by apply list_lookup_middle
                      | by rewrite <- app_assoc; apply list_lookup_middle ] ]
            | left; by rewrite lookup_insert_ne in Hk ]
        end ] ].

(** A call either makes no job or comes down to [_enqueue]. *)
Lemma call_promise_cases o s :
  promise_frame s (exec (call o) s) ∨
  ∃ js s0, promise_frame s s0 ∧ exec (call o) s = exec (_enqueue js) s0.
Proof.
  destruct s as [sess md q ph ty ds t a tr].
  destruct o as [text options | d text | | | ms | m ar | m d rest | d | js];
    destruct sess as [uid|].
  all: try (left; pframe_tac).
  all: right; cbn [call]; rewrite exec_returning.
  - exists {| method := "sendText";
              args := match options with
                      | Some o => if truthy o then [VStr uid; VStr text; o]
                                  else [VStr uid; VStr text]
                      | None => [VStr uid; VStr text]
                      end;
              delay := md; showIndicators := Some true |}.
    eexists. split; [|reflexivity]. pframe_tac.
  - exists (text_job uid text None d).
    eexists. split; [|reflexivity]. pframe_tac.
  - exists (send_job m uid ar md).
    eexists. split; [|reflexivity]. pframe_tac.
  - exists (send_job m uid rest d).
    eexists (exec (warning (deprecated (m +:+ "WithDelay"))) _).
    split; [|reflexivity]. pframe_tac.
  - exists js. eexists. split; [|reflexivity]. pframe_tac.
  - exists js. eexists. split; [|reflexivity]. pframe_tac.
Qed.

Lemma held_below s j :
  promises_ok s → j ∈ held s → deferred j < length (deferreds s).
Proof.
  intros (_ & Hjobs & _) Hj. apply lookup_lt_is_Some. by rewrite (Hjobs j Hj).
Qed.

(** A job with a fresh promise joins the back of the queue. *)
Lemma promises_ok_add s s' j :
  held s' = held s ++ [j] →
  deferred j = length (deferreds s) →
  deferreds s ++ [Pending] `prefix_of` deferreds s' →
  typings s' = typings s →
  notified (trace s') = notified (trace s) →
  promises_ok s → promises_ok s'.
Proof.
  intros Hheld Hj [more Hds] Hty Hnot Hok.
  pose proof Hok as (Hnd & Hjobs & Htasks & Hdone).
  assert (∀ p st, deferreds s !! p = Some st → deferreds s' !! p = Some st)
    as Hgrow.
  { intros p st Hp. rewrite Hds, <- app_assoc. by apply lookup_app_l_Some. }
  assert (deferreds s' !! deferred j = Some Pending) as Hnew.
  { rewrite Hds, <- app_assoc, Hj. by apply list_lookup_middle. }
  assert (deferred j ∉ deferred <$> held s) as Hfresh.
  { intros Hin. apply list_elem_of_fmap in Hin as (j' & Heq & Hj').
    pose proof (held_below _ _ Hok Hj'). lia. }
  unfold promises_ok. rewrite Hheld, Hty, Hnot, fmap_app. split_and!.
  - apply NoDup_app. split_and!; [done| |apply NoDup_singleton].
    intros p Hp ->%list_elem_of_singleton. done.
  - intros j' [Hj'| ->%list_elem_of_singleton]%elem_of_app; [|done].
    by apply Hgrow, Hjobs.
  - intros k Hk. destruct (Htasks k Hk) as [Hp Hnin]. split; [by apply Hgrow|].
    intros [?| ->%list_elem_of_singleton]%elem_of_app; [done|].
    simpl in Hp. rewrite Hj in Hp. apply lookup_lt_Some in Hp. lia.
  - intros p r Hp. by apply Hgrow, Hdone.
Qed.

Lemma _enqueue_leaves js s :
  typings (exec (_enqueue js) s) = typings s ∧
  notified (trace (exec (_enqueue js) s)) = notified (trace s).
Proof.
  destruct s as [sess md q ph ty ds t a tr], js as [m ar d ind].
  destruct ph as [|j0 t0|j0|j0 r0], q as [|[[m1 a1 d1 i1] p1] q];
    try destruct ind as [[]|]; try destruct i1 as [[]|]; try destruct sess;
    ctx_eval; trace_simpl; done.
Qed.

Lemma promises_enqueue js s :
  promises_ok s → promises_ok (exec (_enqueue js) s).
Proof.
  destruct (_enqueue_accepted js s) as (_ & Hds & _ & Hheld).
  destruct (_enqueue_leaves js s) as [Hty Hnot].
  by apply promises_ok_add with (j := mkJob js (length (deferreds s))).
Qed.

(** The job in progress leaves, its promise settled. *)
Lemma promises_ok_remove s s' j r :
  held s = j :: held s' →
  (∃ more, deferreds s' = <[deferred j := Settled r]> (deferreds s) ++ more) →
  typings s' = typings s →
  notified (trace s') = notified (trace s) ++ [(deferred j, r)] →
  promises_ok s → promises_ok s'.
Proof.
  intros Hheld [more Hds] Hty Hnot Hok.
  pose proof Hok as (Hnd & Hjobs & Htasks & Hdone).
  rewrite Hheld in Hnd, Hjobs, Htasks. rewrite fmap_cons in Hnd, Htasks.
  apply NoDup_cons in Hnd as [Hnin Hnd].
  assert (deferreds s !! deferred j = Some Pending) as Hj.
  { apply Hjobs. left. }
  assert (∀ p st, p ≠ deferred j →
            deferreds s !! p = Some st → deferreds s' !! p = Some st) as Hother.
  { intros p st Hne Hp. rewrite Hds. apply lookup_app_l_Some.
    by rewrite list_lookup_insert_ne. }
  assert (deferreds s' !! deferred j = Some (Settled r)) as Hnew.
  { rewrite Hds. apply lookup_app_l_Some, list_lookup_insert_eq.
    by apply lookup_lt_is_Some; rewrite Hj. }
  unfold promises_ok. rewrite Hty, Hnot. split_and!.
  - done.
  - intros j' Hj'. apply Hother; [|apply Hjobs; by right].
    intros Heq. apply Hnin. rewrite <- Heq. by apply list_elem_of_fmap_2.
  - intros k Hk. destruct (Htasks k Hk) as [Hp Hk']. split.
    + apply Hother; [|done]. intros ->. apply Hk'. left.
    + intros Hin. apply Hk'. by right.
  - intros p r' [Hp| [= -> ->]%list_elem_of_singleton]%elem_of_app; [|done].
    destruct (decide (p = deferred j)) as [->|Hne].
    + rewrite (Hdone _ _ Hp) in Hj. done.
    + by apply Hother, Hdone.
Qed.

(** An activation of [typing] that goes on. *)
Lemma promise_frame_typing_on s s' k tp :
  is_Some (typings s !! k) →
  held s' = held s →
  notified (trace s') = notified (trace s) →
  deferreds s `prefix_of` deferreds s' →
  typings s' = <[k := tp]> (typings s) →
  promise_frame s s'.
Proof.
  intros Hk Hheld Hnot [more Hds] Hty. unfold promise_frame.
  rewrite Hheld, Hnot, Hds, Hty. split_and!; try done.
  - apply keeps_settled_app.
  - intros p Hp. left. by apply lookup_app_l_Some.
  - intros k' Hk'. left. destruct (decide (k' = k)) as [->|Hne]; [done|].
    by rewrite lookup_insert_ne in Hk'.
Qed.

(** An activation of [typing] that comes to its end. *)
Lemma promise_frame_typing_end s s' k r :
  is_Some (typings s !! k) →
  held s' = held s →
  notified (trace s') = notified (trace s) →
  deferreds s' = match deferreds s !! k with
                 | Some Pending => <[k := Settled r]> (deferreds s)
                 | _ => deferreds s
                 end →
  typings s' = delete k (typings s) →
  promise_frame s s'.
Proof.
  intros Hk Hheld Hnot Hds Hty. unfold promise_frame.
  rewrite Hheld, Hnot, Hds, Hty. split_and!; try done.
  - keeps_settled_tac.
  - intros p Hp. destruct (decide (p = k)) as [->|Hne].
    + right. split; [done|]. apply lookup_delete_eq.
    + left. destruct (deferreds s !! k) as [[|?]|]; try done.
      by rewrite list_lookup_insert_ne.
  - intros k' Hk'. left. destruct (decide (k' = k)) as [->|Hne].
    + done.
    + by rewrite lookup_delete_ne in Hk'.
Qed.

Lemma step_promises s l s' :
  step s l = Some s' → promises_ok s → promises_ok s'.
Proof.
  intros Hstep Hok. by_rule Hstep.
  - destruct (call_promise_cases o s) as [Hfr|(js & s0 & Hfr & ->)].
    + by apply (promises_frame s).
    + apply promises_enqueue. by apply (promises_frame s).
  - apply (promises_frame s); [|done]. destruct s. pframe_tac.
  - apply (promises_frame s); [|done]. open_state s. pframe_tac.
  - apply (promises_frame s); [|done]. open_state s.
    destruct j as [[m ar d [[]|]] p], sess as [uid|]; pframe_tac.
  - assert (deferreds s !! deferred j = Some Pending) as Hj.
    { destruct Hok as (_ & Hjobs & _). apply (Hjobs j).
      unfold held. rewrite Hph. left. }
    eapply (promises_ok_remove _ _ j r); [| | | |exact Hok].
    all: open_state s; destruct j as [js p]; cbn [deferred] in Hj.
    all: destruct q as [|[[m1 a1 d1 [[]|]] p1] q], sess as [uid|];
      unfold held; ctx_eval; trace_simpl; rewrite ?Hj; try done.
    all: first [ by exists []; rewrite app_nil_r | by eexists [_] ].
  - apply (promises_frame s); [|done]. destruct r' as [v|e].
    + apply (promise_frame_typing_on _ _ k (AwaitSleep ms (now s)));
        [by rewrite Hk|..]; open_state s; ctx_eval; trace_simpl; done.
    + apply (promise_frame_typing_end _ _ k (Rejected e));
        [by rewrite Hk|..]; open_state s; ctx_eval; trace_simpl; done.
  - apply (promises_frame s); [|done]. open_state s.
    destruct sess as [uid|]; eapply (promise_frame_typing_on _ _ k);
      [cbn [typings]; by rewrite Hk|..]; ctx_eval; trace_simpl; try done.
    by eexists.
  - apply (promises_frame s); [|done]. destruct r' as [v|e].
    + apply (promise_frame_typing_end _ _ k (Resolved VUndef));
        [by rewrite Hk|..]; open_state s; ctx_eval; trace_simpl; done.
    + apply (promise_frame_typing_end _ _ k (Rejected e));
        [by rewrite Hk|..]; open_state s; ctx_eval; trace_simpl; done.
Qed.

Lemma promises_constructor sess : promises_ok (constructor sess).
Proof.
  unfold promises_ok. simpl. split_and!.
  - apply NoDup_nil_2.
  - by intros j ?%elem_of_nil.
  - intros k [? Hk]. by rewrite lookup_empty in Hk.
  - by intros p r ?%elem_of_nil.
Qed.

Lemma run_promises ls : ∀ s s',
  run s ls = Some s' → promises_ok s → promises_ok s'.
Proof.
  induction ls as [|l ls IH]; intros s s'; simpl.
  - by intros [= <-].
  - destruct (step s l) as [s1|] eqn:Hstep; [|done]. simpl. intros Hrun Hok.
    apply (IH _ _ Hrun). by apply (step_promises _ _ _ Hstep).
Qed.

Lemma reachable_promises sess ls s :
  run (constructor sess) ls = Some s → promises_ok s.
Proof. intros Hrun. apply (run_promises _ _ _ Hrun), promises_constructor. Qed.

(** ** Order of the invocations *)









(** ** Indicators and delay *)




(** A run with two jobs, spelled out: the job with indicators,
    enqueued at 0 with the default delay 1000 and invoked at 1200, then the
    job without, started at 1200 with delay 300 and invoked at 1500. *)
Example two_jobs_trace :
  let quiet := {| method := "sendText"; args := [VStr "u1"; VStr "psst"];
                  delay := 300; showIndicators := Some false |} in
  let ls := [Do (SendText "hi" None); Do (Enqueue quiet);
             Tick 1200; TimerFired; ActionSettled (Resolved (VStr "ok"));
             AfterDone; Tick 300; TimerFired;
             ActionSettled (Rejected (VStr "no")); AfterDone] in
  queue_trace <$> (trace <$> run (constructor (Some "u1")) ls) =
  Some
    [Entry 0 (HookBefore 0) (Called "typingOn" [VStr "u1"]);
     Entry 0 (HookBefore 0) (Slept 1000);
     Entry 1200 (HookBefore 0) Woke;
     Entry 1200 (Running 0) (Called "sendText" [VStr "u1"; VStr "hi"]);
     Entry 1200 (Running 0) (Returned (Resolved (VStr "ok")));
     Entry 1200 (HookAfter 0) (Called "typingOff" [VStr "u1"]);
     Entry 1200 (Running 0) (Notified 0 (Resolved (VStr "ok")));
     Entry 1200 (HookBefore 1) (Slept 300);
     Entry 1500 (HookBefore 1) Woke;
     Entry 1500 (Running 1) (Called "sendText" [VStr "u1"; VStr "psst"]);
     Entry 1500 (Running 1) (Returned (Rejected (VStr "no")));
     Entry 1500 (Running 1) (Notified 1 (Rejected (VStr "no")))].
Proof. vm_compute. reflexivity. Qed.

(** ** Jobs made through the public interface *)

Lemma _enqueue_enqueued js s :
  enqueued (trace (exec (_enqueue js) s))
  = enqueued (trace s) ++ [mkJob js (length (deferreds s))].
Proof. by destruct (_enqueue_accepted js s) as (_ & _ & ? & _). Qed.

(** Jobs are enqueued by calls only, one at most, and the public ones ask
    for indicators. *)
Lemma step_enqueued s l s' :
  step s l = Some s' → actor s = User →
  ∃ new, enqueued (trace s') = enqueued (trace s) ++ new ∧
    (public_label l = true →
     Forall (λ j, showIndicators (spec j) = Some true) new) ∧
    (env_label l = true → new = []).
Proof.
  intros Hstep Hact. destruct (typing_label l) eqn:Hl.
  { exists [].
    destruct (typing_step_frame _ _ _ Hl Hact Hstep)
      as (_ & _ & _ & _ & _ & _ & ->).
    by rewrite app_nil_r. }
  by_rule Hstep; try done.
  - destruct (call_cases o s Hact) as [Hfr|(js & s0 & Hfr & -> & Hpub)].
    + exists []. destruct Hfr as (_ & _ & _ & _ & _ & _ & ->).
      by rewrite app_nil_r.
    + exists [mkJob js (length (deferreds s0))].
      rewrite _enqueue_enqueued.
      destruct Hfr as (_ & _ & _ & _ & _ & _ & ->). split_and!; [done| |done].
      intros Ho. apply Forall_singleton. by apply Hpub.
  - exists []. by rewrite app_nil_r.
  - exists []. open_state s. ctx_eval. trace_simpl. by rewrite ?app_nil_r.
  - exists []. open_state s.
    destruct j as [[m ar d [[]|]] p], sess as [uid|];
      ctx_eval; trace_simpl; by rewrite ?app_nil_r.
  - exists []. open_state s.
    destruct j as [js p], q as [|[[m1 a1 d1 [[]|]] p1] q], sess as [uid|];
      ctx_eval; trace_simpl; by rewrite ?app_nil_r.
Qed.

Lemma run_public_enqueued sess ls : ∀ s s',
  run s ls = Some s' → inv sess s →
  Forall (λ l, public_label l = true) ls →
  Forall (λ j, showIndicators (spec j) = Some true) (enqueued (trace s)) →
  Forall (λ j, showIndicators (spec j) = Some true) (enqueued (trace s')).
Proof.
  induction ls as [|l ls IH]; intros s s'; simpl.
  - by intros [= <-].
  - destruct (step s l) as [s1|] eqn:Hstep; [|done]. simpl.
    intros Hrun Hinv [Hl Hls]%Forall_cons Hall.
    apply (IH _ _ Hrun); [by apply (step_inv _ _ _ _ Hstep)|done|].
    destruct (step_enqueued _ _ _ Hstep) as (new & -> & Hnew & _).
    + by destruct Hinv as (_ & ? & _).
    + apply Forall_app. split; [done|by apply Hnew].
Qed.

(** C9. In a run in which the caller keeps to the public operations, every
    job that is enqueued asks for indicators, and so does every job the
    queue holds and every job whose hooks have run: the hooks never meet a
    job with [showIndicators] false. *)
Theorem public_jobs_show_indicators
    (sess : option string) (ls : list label) (s : State) :
  run (constructor sess) ls = Some s →
  Forall (λ l, public_label l = true) ls →
  Forall (λ j, showIndicators (spec j) = Some true) (enqueued (trace s)) ∧
  Forall (λ j, showIndicators (spec j) = Some true) (held s) ∧
  ∃ done cur,
    serial sess s done cur ∧
    Forall (λ ep, showIndicators (spec (ep_job ep)) = Some true) done.
Proof.
  intros Hrun Hpub.
  assert (Forall (λ j, showIndicators (spec j) = Some true)
            (enqueued (trace s))) as Hall.
  { apply (run_public_enqueued sess ls _ _ Hrun);
      [apply inv_constructor|done|by apply Forall_nil]. }
  destruct (reachable_inv _ _ _ Hrun) as (_ & _ & done & cur & Hser).
  pose proof Hser as (_ & _ & Hen & _).
  rewrite Hen in Hall. apply Forall_app in Hall as [Hdone Hheld].
  split_and!; [by rewrite Hen; apply Forall_app|done|].
  exists done, cur. split; [done|]. by apply Forall_fmap in Hdone.
Qed.

Lemma public_jobs_show_indicators_witness :
  let ls := [Do (SendText "hi" None);
             Do (SendTextWithDelay 50 "there");
             Do (SendWithDelay "sendAudio" 20 [VStr "a.mp3"]);
             Tick 1000; TimerFired; ActionSettled (Resolved VUndef);
             AfterDone; Do (Send "sendImage" [VStr "cat.png"])] in
  ∃ s,
    run (constructor (Some "u1")) ls = Some s ∧
    Forall (λ l, public_label l = true) ls ∧
    Forall (λ j, showIndicators (spec j) = Some true) (enqueued (trace s)) ∧
    Forall (λ j, showIndicators (spec j) = Some true) (held s) ∧
    ∃ done cur,
      serial (Some "u1") s done cur ∧
      Forall (λ ep, showIndicators (spec (ep_job ep)) = Some true) done.
Proof.
  intros ls. eexists. split; [vm_compute; reflexivity|].
  assert (Forall (λ l, public_label l = true) ls) as Hpub.
  { repeat constructor. }
  split; [exact Hpub|].
  apply (public_jobs_show_indicators (Some "u1") ls); [|exact Hpub].
  vm_compute. reflexivity.
Defined.

(** ** A rejection and the jobs after it *)

Lemma notified_queue_trace tr p r :
  (p, r) ∈ notified (queue_trace tr) → (p, r) ∈ notified tr.
Proof.
  unfold notified, queue_trace. rewrite !list_elem_of_omap.
  intros (e & [_ He]%list_elem_of_filter & Hn). by exists e.
Qed.

Lemma notified_episode sess ep :
  (deferred (ep_job ep), ep_outcome ep) ∈ notified (episode sess ep).
Proof.
  unfold notified, episode. rewrite list_elem_of_omap.
  exists (Entry (ep_finished ep) (Running (deferred (ep_job ep)))
            (Notified (deferred (ep_job ep)) (ep_outcome ep))).
  split; [|done]. rewrite !elem_of_app. do 3 right. left.
Qed.

(** The promise of every job the queue is done with is settled with the
    outcome of that job's action. *)
Lemma done_is_delivered sess s done cur :
  promises_ok s → serial sess s done cur →
  Forall (λ ep, deferreds s !! deferred (ep_job ep)
                = Some (Settled (ep_outcome ep))) done.
Proof.
  intros (_ & _ & _ & Hnot) (Hqt & _). apply Forall_forall. intros ep Hep.
  apply Hnot, notified_queue_trace. rewrite Hqt.
  unfold notified. rewrite omap_app, elem_of_app. left.
  apply list_elem_of_omap.
  destruct (proj1 (list_elem_of_omap _ _ _) (notified_episode sess ep))
    as (e & He & Hn).
  exists e. split; [|done]. apply list_elem_of_In, in_flat_map.
  exists ep. split; by apply list_elem_of_In.
Qed.

(** The action of the job in progress settles with [r] and the after hook
    completes: the job's promise is settled with [r] and no other is
    touched; the loop is at its head again. *)
Lemma settle_and_finish s j r :
  promises_ok s → phase s = Calling j →
  ∃ s1 s2,
    step s (ActionSettled r) = Some s1 ∧ step s1 AfterDone = Some s2 ∧
    deferreds s2 !! deferred j = Some (Settled r) ∧
    (∀ p, p ≠ deferred j → p < length (deferreds s) →
          deferreds s2 !! p = deferreds s !! p) ∧
    phase s2 = next_phase (queue s) (now s) ∧
    queue s2 = tail (queue s) ∧
    now s2 = now s ∧
    invocations (trace s2) = invocations (trace s).
Proof.
  intros Hok Hph.
  destruct (step s (ActionSettled r)) as [s1|] eqn:Hs1;
    [|by unfold step in Hs1; rewrite Hph in Hs1].
  assert (phase s1 = Finishing j r ∧ queue s1 = queue s ∧ now s1 = now s ∧
          invocations (trace s1) = invocations (trace s) ∧
          ∃ more, deferreds s1 = deferreds s ++ more)
    as (Hph1 & Hq1 & Ht1 & Hi1 & more1 & Hd1).
  { unfold step in Hs1. rewrite Hph in Hs1. injection Hs1 as <-.
    destruct s as [sess md q ph ty ds t a tr].
    destruct j as [[m ar d [[]|]] p], sess as [uid|]; ctx_eval;
      unfold invocations; rewrite ?omap_snoc; cbn [who what option_list];
      rewrite ?app_nil_r; split_and!; try done.
    all: first [by exists []; rewrite app_nil_r | by eexists]. }
  destruct (step s1 AfterDone) as [s2|] eqn:Hs2;
    [|by unfold step in Hs2; rewrite Hph1 in Hs2].
  exists s1, s2. split; [done|]. split; [done|].
  pose proof (step_promises _ _ _ Hs2 (step_promises _ _ _ Hs1 Hok)) as Hok2.
  assert (deferreds s1 !! deferred j = Some Pending) as Hj1.
  { destruct (step_promises _ _ _ Hs1 Hok) as (_ & Hjobs & _).
    apply Hjobs. unfold held. rewrite Hph1. left. }
  unfold step in Hs2. rewrite Hph1 in Hs2. injection Hs2 as <-.
  rewrite <- Hq1, <- Ht1. clear Hs1 Hph Hq1 Ht1 Hok.
  destruct s1 as [sess md q ph ty ds t a tr]. simpl in Hph1, Hd1, Hi1, Hj1.
  subst ph. rewrite <- Hi1. clear Hi1.
  destruct j as [js p]. cbn [deferred] in *.
  split_and!.
  - destruct Hok2 as (_ & _ & _ & Hnot). apply Hnot.
    destruct q as [|[[m1 a1 d1 [[]|]] p1] q], sess as [uid|];
      ctx_eval; trace_simpl; rewrite ?elem_of_app, ?list_elem_of_singleton;
      tauto.
  - intros p' Hne Hlt. rewrite <- (lookup_app_l (deferreds s) more1 p' Hlt).
    rewrite <- Hd1.
    assert (p' < length ds) as Hlt'.
    { rewrite Hd1, length_app. lia. }
    destruct q as [|[[m1 a1 d1 [[]|]] p1] q], sess as [uid|];
      ctx_eval; rewrite Hj1.
    all: rewrite ?lookup_app_l by (rewrite ?length_insert; lia).
    all: by rewrite list_lookup_insert_ne.
  - by destruct q as [|[[m1 a1 d1 [[]|]] p1] q], sess as [uid|].
  - by destruct q as [|[[m1 a1 d1 [[]|]] p1] q], sess as [uid|].
  - by destruct q as [|[[m1 a1 d1 [[]|]] p1] q], sess as [uid|].
  - destruct q as [|[[m1 a1 d1 [[]|]] p1] q], sess as [uid|];
      ctx_eval; unfold invocations; rewrite ?omap_snoc;
      cbn [who what option_list]; by rewrite ?app_nil_r.
Qed.

Lemma run_cons s l ls s1 :
  step s l = Some s1 → run s (l :: ls) = run s1 ls.
Proof. intros Hstep. cbn [run]. by rewrite Hstep. Qed.

(** A job whose before hook is asleep is seen through: its action is
    invoked and its promise settled with the outcome of the action. *)
Lemma see_through_runs s k t0 r :
  promises_ok s → phase s = Sleeping k t0 → (t0 ≤ now s)%Z →
  ∃ s',
    run s (see_through k r) = Some s' ∧
    deferreds s' !! deferred k = Some (Settled r) ∧
    invocations (trace s') = invocations (trace s) ++ [invocation_of k] ∧
    phase s' = next_phase (queue s) (now s') ∧
    queue s' = tail (queue s).
Proof.
  intros Hok Hph Ht0. unfold see_through.
  set (d := Z.max 0 (delay (spec k))).
  assert (step s (Tick d) = Some (set_now (now s + d) s)) as Hs1.
  { unfold step. by rewrite (proj2 (Z.leb_le 0 d)) by lia. }
  set (s1 := set_now (now s + d)%Z s) in *.
  assert (step s1 TimerFired = Some (exec (DelayableJobQueue.invoke k) s1))
    as Hs2.
  { unfold step. subst s1. cbn [phase now set_now]. rewrite Hph.
    by rewrite (proj2 (Z.leb_le _ _)) by lia. }
  set (s2 := exec (DelayableJobQueue.invoke k) s1) in *.
  pose proof (step_promises _ _ _ Hs2 (step_promises _ _ _ Hs1 Hok)) as Hok2.
  assert (phase s2 = Calling k ∧ queue s2 = queue s ∧
          invocations (trace s2) = invocations (trace s) ++ [invocation_of k])
    as (Hph2 & Hq2 & Hi2).
  { subst s2 s1. destruct s as [sess md q ph ty ds t a tr].
    ctx_eval. unfold invocations. rewrite !omap_snoc.
    cbn [who what option_list]. by rewrite app_nil_r. }
  destruct (settle_and_finish s2 k r Hok2 Hph2)
    as (s3 & s4 & Hs3 & Hs4 & Hk & _ & Hph4 & Hq4 & Ht4 & Hi4).
  exists s4. split_and!.
  - by rewrite (run_cons _ _ _ _ Hs1), (run_cons _ _ _ _ Hs2),
      (run_cons _ _ _ _ Hs3), (run_cons _ _ _ _ Hs4).
  - done.
  - by rewrite Hi4.
  - by rewrite Hph4, Hq2, Ht4.
  - by rewrite Hq4, Hq2.
Qed.

(** What a call hands back is the promise of the job it enqueues: a method
    that comes down to [_enqueue] returns what [_enqueue] returns. *)
Lemma returning_accepted (m : M pref) js s s0 :
  m s = _enqueue js s0 →
  deferreds s0 = deferreds s →
  enqueued (trace s0) = enqueued (trace s) →
  held s0 = held s →
  ∃ w, (returning m s).1 = Some w ∧ accepted js s (w, (returning m s).2).
Proof.
  intros Hm Hds Hen Hheld.
  pose proof (_enqueue_accepted js s0) as (Hret & Hpre & Hnew & Hq).
  exists (_enqueue js s0).1. unfold returning, bind, ret. rewrite Hm.
  destruct (_enqueue js s0) as [w s1]. cbn [fst snd] in *.
  unfold accepted. cbn [fst snd]. rewrite <- Hds, <- Hen, <- Hheld.
  by split_and!.
Qed.

(** A call enqueues nothing, or it enqueues one job and returns the promise
    it made for that job. *)
Lemma call_enqueues o s :
  enqueued (trace (call o s).2) = enqueued (trace s) ∨
  ∃ js w, (call o s).1 = Some w ∧ accepted js s (w, (call o s).2).
Proof.
  destruct s as [sess md q ph ty ds t a tr].
  destruct o as [text options | d text | | | ms | m ar | m d rest | d | js];
    destruct sess as [uid|].
  all: try (left; ctx_eval; by trace_simpl).
  all: right; cbn [call].
  - exists {| method := "sendText";
              args := match options with
                      | Some o => if truthy o then [VStr uid; VStr text; o]
                                  else [VStr uid; VStr text]
                      | None => [VStr uid; VStr text]
                      end;
              delay := md; showIndicators := Some true |}.
    by eapply returning_accepted.
  - exists (text_job uid text None d). by eapply returning_accepted.
  - exists (send_job m uid ar md). by eapply returning_accepted.
  - exists (send_job m uid rest d).
    eapply (returning_accepted _ _ _
              (exec (warning (deprecated (m +:+ "WithDelay"))) _));
      [reflexivity|done| |done].
    ctx_eval. by trace_simpl.
  - exists js. by eapply returning_accepted.
  - exists js. by eapply returning_accepted.
Qed.

(** The job a call enqueues carries the promise the call returns. *)
Lemma caller_holds_the_promise o s j :
  enqueued (trace (exec (call o) s)) = enqueued (trace s) ++ [j] →
  (call o s).1 = Some (Own (deferred j)) ∧
  deferred j = length (deferreds s) ∧
  accepted (spec j) s (Own (deferred j), exec (call o) s).
Proof.
  unfold exec. intros Hj.
  destruct (call_enqueues o s) as [Hnone|(js & w & Hw & Hacc)].
  - rewrite Hnone in Hj. apply (f_equal length) in Hj.
    rewrite length_app in Hj. simpl in Hj. lia.
  - pose proof Hacc as (Hret & _ & Hnew & _). cbn [fst snd] in Hret, Hnew.
    rewrite Hj in Hnew. apply app_inv_head in Hnew. injection Hnew as ->.
    cbn [spec deferred]. subst w. by split_and!.
Qed.

(** C4. In every run the promise of each job the queue is done with is
    settled with the outcome of that job's own action, whatever became of
    the jobs before it.  And when the action of the job in progress rejects:
    the steps that follow are there to take; they reject the promise that
    was returned when the job was enqueued and touch no other promise; the
    loop is at its head again, idle if nothing is pending and else in the
    before hook of the next job; and that job is then seen through as any
    other: its action is invoked on the client and its promise is settled
    with the outcome of that action.  The promise of a job is the promise
    its caller holds: a call that enqueues a job returns the promise the
    job carries, a new one and pending; and when, later in the run, the
    action of that job settles, with a rejection or with a resolution, what
    the caller gets from awaiting the promise the call returned is that
    outcome, then and ever after, and no other promise that was there is
    touched. *)
Theorem rejection_goes_to_its_caller_alone
    (sess : option string) (ls : list label) (s : State) :
  run (constructor sess) ls = Some s →
  (∃ done cur,
     serial sess s done cur ∧
     Forall (λ ep, deferreds s !! deferred (ep_job ep)
                   = Some (Settled (ep_outcome ep))) done) ∧
  (∀ j e, phase s = Calling j →
    ∃ s1 s2,
      step s (ActionSettled (Rejected e)) = Some s1 ∧
      step s1 AfterDone = Some s2 ∧
      deferreds s2 !! deferred j = Some (Settled (Rejected e)) ∧
      (∀ p, p ≠ deferred j → p < length (deferreds s) →
            deferreds s2 !! p = deferreds s !! p) ∧
      phase s2 = next_phase (queue s) (now s) ∧
      queue s2 = tail (queue s) ∧
      ∀ k rest r, queue s = k :: rest →
        ∃ s3,
          run s2 (see_through k r) = Some s3 ∧
          invocations (trace s3) = invocations (trace s) ++ [invocation_of k] ∧
          deferreds s3 !! deferred k = Some (Settled r) ∧
          deferreds s3 !! deferred j = Some (Settled (Rejected e)) ∧
          phase s3 = next_phase rest (now s3)) ∧
  ∀ o j,
    defined o = true →
    enqueued (trace (exec (call o) s)) = enqueued (trace s) ++ [j] →
    ∃ w,
      (call o s).1 = Some w ∧
      w = Own (deferred j) ∧
      accepted (spec j) s (w, exec (call o) s) ∧
      ∀ ls' s' r,
        run (exec (call o) s) ls' = Some s' →
        phase s' = Calling j →
        ∃ s1 s2,
          step s' (ActionSettled r) = Some s1 ∧
          step s1 AfterDone = Some s2 ∧
          (∀ r0, awaited s2 w r0 = Some r) ∧
          (∀ p, Own p ≠ w → p < length (deferreds s') →
                deferreds s2 !! p = deferreds s' !! p) ∧
          ∀ ls'' s'' r0, run s2 ls'' = Some s'' → awaited s'' w r0 = Some r.
Proof.
  intros Hrun. pose proof (reachable_promises _ _ _ Hrun) as Hok.
  split_and!.
  - destruct (reachable_inv _ _ _ Hrun) as (_ & _ & done & cur & Hser).
    exists done, cur. split; [done|]. by apply (done_is_delivered sess _ _ cur).
  - intros j e Hph.
    destruct (settle_and_finish s j (Rejected e) Hok Hph)
      as (s1 & s2 & Hs1 & Hs2 & Hj & Hothers & Hph2 & Hq2 & Ht2 & Hi2).
    exists s1, s2. split_and!; try done.
    intros k rest r Hq. rewrite Hq in Hph2, Hq2. simpl in Hph2, Hq2.
    pose proof (step_promises _ _ _ Hs2 (step_promises _ _ _ Hs1 Hok)) as Hok2.
    destruct (see_through_runs s2 k (now s) r Hok2 Hph2 ltac:(lia))
      as (s3 & Hs3 & Hk & Hi3 & Hph3 & Hq3).
    exists s3. split_and!; try done.
    + by rewrite Hi3, Hi2.
    + by apply (run_keeps_settled _ _ _ Hs3).
    + by rewrite Hph3, Hq2.
  - intros o j Hdef Hj.
    destruct (caller_holds_the_promise o s j Hj) as (Hret & _ & Hacc).
    exists (Own (deferred j)). split_and!; try done.
    intros ls' s' r Hrun' Hph.
    assert (step s (Do o) = Some (exec (call o) s)) as Hstep.
    { unfold step. by rewrite Hdef. }
    pose proof (run_promises _ _ _ Hrun' (step_promises _ _ _ Hstep Hok))
      as Hok'.
    destruct (settle_and_finish s' j r Hok' Hph)
      as (s1 & s2 & Hs1 & Hs2 & Hsettled & Hothers & _).
    exists s1, s2. split_and!; try done.
    + intros r0. unfold awaited. by rewrite Hsettled.
    + intros p Hp Hlt. apply Hothers; [|done]. by intros ->.
    + intros ls'' s'' r0 Hrun''. unfold awaited.
      by rewrite (run_keeps_settled _ _ _ Hrun'' _ _ Hsettled).
Qed.

Lemma rejection_goes_to_its_caller_alone_witness :
  let ls := [Do (SendText "A" None); Do (SendText "B" None);
             Tick 1000; TimerFired] in
  ∃ s,
    run (constructor (Some "u1")) ls = Some s ∧
    (∃ done cur,
       serial (Some "u1") s done cur ∧
       Forall (λ ep, deferreds s !! deferred (ep_job ep)
                     = Some (Settled (ep_outcome ep))) done) ∧
    (∀ j e, phase s = Calling j →
      ∃ s1 s2,
        step s (ActionSettled (Rejected e)) = Some s1 ∧
        step s1 AfterDone = Some s2 ∧
        deferreds s2 !! deferred j = Some (Settled (Rejected e)) ∧
        (∀ p, p ≠ deferred j → p < length (deferreds s) →
              deferreds s2 !! p = deferreds s !! p) ∧
        phase s2 = next_phase (queue s) (now s) ∧
        queue s2 = tail (queue s) ∧
        ∀ k rest r, queue s = k :: rest →
          ∃ s3,
            run s2 (see_through k r) = Some s3 ∧
            invocations (trace s3)
              = invocations (trace s) ++ [invocation_of k] ∧
            deferreds s3 !! deferred k = Some (Settled r) ∧
            deferreds s3 !! deferred j = Some (Settled (Rejected e)) ∧
            phase s3 = next_phase rest (now s3)) ∧
    ∀ o j,
      defined o = true →
      enqueued (trace (exec (call o) s)) = enqueued (trace s) ++ [j] →
      ∃ w,
        (call o s).1 = Some w ∧
        w = Own (deferred j) ∧
        accepted (spec j) s (w, exec (call o) s) ∧
        ∀ ls' s' r,
          run (exec (call o) s) ls' = Some s' →
          phase s' = Calling j →
          ∃ s1 s2,
            step s' (ActionSettled r) = Some s1 ∧
            step s1 AfterDone = Some s2 ∧
            (∀ r0, awaited s2 w r0 = Some r) ∧
            (∀ p, Own p ≠ w → p < length (deferreds s') →
                  deferreds s2 !! p = deferreds s' !! p) ∧
            ∀ ls'' s'' r0, run s2 ls'' = Some s'' → awaited s'' w r0 = Some r.
Proof.
  intros ls. eexists. split; [vm_compute; reflexivity|].
  apply (rejection_goes_to_its_caller_alone (Some "u1") ls).
  vm_compute. reflexivity.
Defined.

(** The promises the callers hold, spelled out on the example of the
    specification: the call for A returns the promise 0 and the call for B
    the promise 1; A rejects and B resolves with "ok"; awaiting the
    first gives the rejection and awaiting the second gives "ok". *)
Example callers_of_a_and_b :
  let s0 := constructor (Some "u1") in
  let a := call (SendText "A" None) s0 in
  let b := call (SendText "B" None) a.2 in
  let ls := [Tick 1000; TimerFired; ActionSettled (Rejected (VStr "boom"));
             AfterDone;
             Tick 1000; TimerFired; ActionSettled (Resolved (VStr "ok"));
             AfterDone] in
  (a.1, b.1,
   s ← run b.2 ls;
   wa ← a.1; wb ← b.1;
   ra ← awaited s wa (Resolved VUndef);
   rb ← awaited s wb (Resolved VUndef);
   Some (ra, rb))
  = (Some (Own 0), Some (Own 1),
     Some (Rejected (VStr "boom"), Resolved (VStr "ok"))).
Proof. vm_compute. reflexivity. Qed.

(** The example of the specification: job A rejects and job B, enqueued
    after it, resolves with "ok"; the promise of A is rejected, the promise
    of B is resolved with "ok", and both actions were invoked, A before B. *)
Example a_rejects_b_resolves :
  let ls := [Do (SendText "A" None); Do (SendText "B" None);
             Tick 1000; TimerFired; ActionSettled (Rejected (VStr "boom"));
             AfterDone;
             Tick 1000; TimerFired; ActionSettled (Resolved (VStr "ok"));
             AfterDone] in
  (λ s, (deferreds s, invocations (trace s), phase s, queue s))
    <$> run (constructor (Some "u1")) ls =
  Some ([Settled (Rejected (VStr "boom")); Settled (Resolved (VStr "ok"))],
        [(0, "sendText", [VStr "u1"; VStr "A"]);
         (1, "sendText", [VStr "u1"; VStr "B"])],
        Idle, []).
Proof. vm_compute. reflexivity. Qed.

(** ** Activations of [typing] *)


Lemma settle_length (ds : list pstate) p r :
  length (match ds !! p with
          | Some Pending => <[p := Settled r]> ds
          | _ => ds
          end) = length ds.
Proof. destruct (ds !! p) as [[|?]|]; by rewrite ?length_insert. Qed.

















(** A run spelled out: [typing(500)] is called at
    time 0 while the queue sleeps in the before hook of a job; typing off
    comes at 700, when the sleep of 500 is over, and the job, whose delay
    is 1000, has still not been invoked. *)
Example typing_trace_example :
  let ls := [Do (SendText "hi" None); Do (Typing 500);
             AnimOnSettled 1 (Resolved VUndef); Tick 700;
             AnimTimerFired 1; AnimOffSettled 1 (Resolved VUndef)] in
  (λ s, (typing_trace 1 (trace s), invocations (trace s), deferreds s !! 1))
    <$> run (constructor (Some "u1")) ls =
  Some ([Entry 0 (Animation 1) (Called "typingOn" [VStr "u1"]);
         Entry 0 (Animation 1) (Returned (Resolved VUndef));
         Entry 0 (Animation 1) (Slept 500);
         Entry 700 (Animation 1) Woke;
         Entry 700 (Animation 1) (Called "typingOff" [VStr "u1"]);
         Entry 700 (Animation 1) (Returned (Resolved VUndef))],
        [], Some (Settled (Resolved VUndef))).
Proof. vm_compute. reflexivity. Qed.

(** ** The queue drains *)












(** ** [sendText] and the generated methods *)

(** X1. [sendText] and [sendTextWithDelay] are what the template of the
    generated methods makes of the name [sendText], with two differences:
    an argument in the place of the options that is falsy is dropped, where
    the template passes every argument on, and [sendTextWithDelay] reports
    no deprecation. *)
Theorem sendText_follows_the_template (text : string) (d : Z) (s : State) :
  sendText text None s = send "sendText" [VStr text] s ∧
  (∀ o, truthy o = true →
        sendText text (Some o) s = send "sendText" [VStr text; o] s) ∧
  (∀ o, truthy o = false →
        sendText text (Some o) s = send "sendText" [VStr text] s) ∧
  sendWithDelay "sendText" d [VStr text] s
    = (warning (deprecated "sendTextWithDelay") >> sendTextWithDelay d text) s.
Proof.
  destruct s as [sess md q ph ty ds t a tr]. split_and!.
  - by destruct sess.
  - intros o Ho. unfold sendText, send, bind, get. cbn [session messageDelay].
    destruct sess; [|done]. by rewrite Ho.
  - intros o Ho. unfold sendText, send, bind, get. cbn [session messageDelay].
    destruct sess; [|done]. by rewrite Ho.
  - by destruct sess.
Qed.

(** ** The generated methods on the prototype *)

Lemma prototype_installed : prototype = Some (list_to_map installed).
Proof. apply (bool_decide_unpack _). vm_compute. reflexivity. Qed.

Lemma installed_names : NoDup installed.*1.
Proof. apply (bool_decide_unpack _). vm_compute. reflexivity. Qed.

(** Every property is listed under the name its value was made for. *)
Lemma installed_values :
  Forall (λ nd, match prop_value nd.2 with
                | Declared n => nd.1 = n ∧ n ∈ class_body
                | Generated m => nd.1 = m ∧ m ∈ sendMethods
                | GeneratedWithDelay m =>
                    nd.1 = m +:+ "WithDelay" ∧ m ∈ sendMethods
                end)
         installed.
Proof.
  unfold installed.
  cbn [class_body sendMethods fmap list_fmap flat_map app].
  repeat (apply Forall_cons; split;
          [cbn [prop_value declared generated fst snd];
           split; first [reflexivity
                        | apply (bool_decide_unpack _); vm_compute;
                          reflexivity]|]).
  apply Forall_nil_2.
Qed.

Lemma installed_lookup n d :
  (list_to_map installed : gmap string Descriptor) !! n = Some d ↔
  (n, d) ∈ installed.
Proof.
  split.
  - apply elem_of_list_to_map_2.
  - apply elem_of_list_to_map_1, installed_names.
Qed.

(** X2. Loading the module defines, on the prototype of the class, the
    generated method under each listed name and its variant under that name
    followed by [WithDelay], 28 properties in all, none of them enumerable;
    no [defineProperty] throws, no definition replaces a member of the class
    body or another generated method, and no other name gets a generated
    method.  The operations the transition system takes to be defined are
    the ones installed. *)
Theorem generated_methods_installed :
  ∃ proto,
    prototype = Some proto ∧
    (∀ n, n ∈ class_body → proto !! n = Some (declared n)) ∧
    (∀ m, proto !! m = Some (generated (Generated m)) ↔ m ∈ sendMethods) ∧
    (∀ m, proto !! (m +:+ "WithDelay")
            = Some (generated (GeneratedWithDelay m)) ↔ m ∈ sendMethods) ∧
    (∀ o, defined o = true ↔
       match o with
       | Send m _ => proto !! m = Some (generated (Generated m))
       | SendWithDelay m _ _ =>
           proto !! (m +:+ "WithDelay")
             = Some (generated (GeneratedWithDelay m))
       | _ => True
       end) ∧
    size proto = length class_body + 2 * length sendMethods.
Proof.
  exists (list_to_map installed).
  assert (∀ n, n ∈ class_body →
            (list_to_map installed : gmap string Descriptor) !! n
            = Some (declared n)) as Hclass.
  { apply Forall_forall. apply (bool_decide_unpack _). vm_compute.
    reflexivity. }
  assert (∀ m, (list_to_map installed : gmap string Descriptor) !! m
               = Some (generated (Generated m)) ↔ m ∈ sendMethods) as Hgen.
  { intros m. split.
    - intros Hd%installed_lookup.
      pose proof (proj1 (Forall_forall _ _) installed_values _ Hd) as H.
      simpl in H. tauto.
    - revert m. apply Forall_forall. apply (bool_decide_unpack _).
      vm_compute. reflexivity. }
  assert (∀ m, (list_to_map installed : gmap string Descriptor)
                 !! (m +:+ "WithDelay")
               = Some (generated (GeneratedWithDelay m)) ↔ m ∈ sendMethods)
    as Hwd.
  { intros m. split.
    - intros Hd%installed_lookup.
      pose proof (proj1 (Forall_forall _ _) installed_values _ Hd) as H.
      simpl in H. tauto.
    - revert m. apply Forall_forall. apply (bool_decide_unpack _).
      vm_compute. reflexivity. }
  split; [apply prototype_installed|].
  split; [exact Hclass|]. split; [exact Hgen|]. split; [exact Hwd|].
  split.
  - intros [ | | | | | m a | m d rest | | ]; cbn [defined]; try tauto.
    + rewrite Hgen. exact (bool_decide_eq_true _).
    + rewrite Hwd. exact (bool_decide_eq_true _).
  - apply (bool_decide_unpack _). vm_compute. reflexivity.
Qed.

(** ** The jobs a run asks for *)

Ltac job_eval :=
  cbn [job_of text_job send_job passed_on mbind option_bind option_list
       fmap option_fmap option_map delay_after app].

(** What a step enqueues, on a context with a session. *)
Lemma step_requested uid s l s' :
  step s l = Some s' → session s = Some uid →
  let new := match l with
             | Do o => option_list
                         ((λ js, mkJob js (length (deferreds s)))
                            <$> job_of uid (messageDelay s) o)
             | _ => []
             end in
  enqueued (trace s') = enqueued (trace s) ++ new ∧
  messageDelay s' = delay_after (messageDelay s) l ∧
  length (deferreds s) + length new ≤ length (deferreds s').
Proof.
  intros Hstep Hsess. by_rule Hstep; open_state s.
  - destruct o as [text [o|] | d text | | | ms | m ar | m d rest | d | js].
    all: destruct ph, q as [|[[m1 a1 d1 [[]|]] p1] q];
      try destruct js as [? ? ? [[]|]];
      ctx_eval; job_eval; try destruct (truthy o);
      ctx_eval; trace_simpl;
      rewrite ?length_app; simpl; split_and!; (done || lia).
  - simpl. rewrite app_nil_r. split_and!; (done || lia).
  - ctx_eval. trace_simpl. simpl. split_and!; (done || lia).
  - destruct j as [[m1 a1 d1 [[]|]] p1]; ctx_eval; trace_simpl; simpl;
      split_and!; (done || lia).
  - destruct j as [js p], q as [|[[m1 a1 d1 [[]|]] p1] q];
      ctx_eval; trace_simpl; simpl; rewrite ?settle_length;
      split_and!; (done || lia).
  - destruct r'; ctx_eval; trace_simpl; simpl; rewrite ?settle_length;
      split_and!; (done || lia).
  - ctx_eval; trace_simpl; simpl; split_and!; (done || lia).
  - destruct r'; ctx_eval; trace_simpl; simpl; rewrite ?settle_length;
      split_and!; (done || lia).
Qed.

Lemma run_requested uid ls : ∀ s s',
  run s ls = Some s' → session s = Some uid →
  spec <$> enqueued (trace s')
    = (spec <$> enqueued (trace s)) ++ requested uid (messageDelay s) ls ∧
  messageDelay s' = foldl delay_after (messageDelay s) ls.
Proof.
  induction ls as [|l ls IH]; intros s s'; cbn [run requested foldl].
  - intros [= <-] _. by rewrite app_nil_r.
  - destruct (step s l) as [s1|] eqn:Hstep; [|done]. cbn [mbind option_bind].
    intros Hrun Hsess.
    destruct (step_requested _ _ _ _ Hstep Hsess) as (Hen & Hmd & _).
    destruct (IH _ _ Hrun) as [-> ->].
    { by rewrite (step_session _ _ _ Hstep). }
    rewrite Hen, Hmd, fmap_app, <- app_assoc. split; [|done].
    do 2 f_equal. destruct l as [o| | | | | | |]; try done.
    by destruct (job_of uid (messageDelay s) o).
Qed.

(** Every job has a promise of its own. *)
Lemma run_own_promises uid ls : ∀ s s',
  run s ls = Some s' → session s = Some uid →
  Forall (λ j, deferred j < length (deferreds s)) (enqueued (trace s)) →
  NoDup (deferred <$> enqueued (trace s)) →
  Forall (λ j, deferred j < length (deferreds s')) (enqueued (trace s')) ∧
  NoDup (deferred <$> enqueued (trace s')).
Proof.
  induction ls as [|l ls IH]; intros s s'; cbn [run].
  - by intros [= <-].
  - destruct (step s l) as [s1|] eqn:Hstep; [|done]. cbn [mbind option_bind].
    intros Hrun Hsess Hlt Hnd.
    destruct (step_requested _ _ _ _ Hstep Hsess) as (Hen & _ & Hlen).
    apply (IH _ _ Hrun); [by rewrite (step_session _ _ _ Hstep)|..];
      rewrite Hen.
    + apply Forall_app. split.
      * eapply Forall_impl; [exact Hlt|]. simpl. intros j ?. lia.
      * destruct l as [o| | | | | | |]; try apply Forall_nil_2.
        destruct (job_of uid (messageDelay s) o) as [js|];
          [|apply Forall_nil_2].
        apply Forall_singleton. simpl in *. lia.
    + rewrite fmap_app. apply NoDup_app. split_and!; [done| |].
      * intros p Hp Hp'.
        apply list_elem_of_fmap in Hp as (j & -> & Hj).
        pose proof (proj1 (Forall_forall _ _) Hlt _ Hj) as Hjlt.
        destruct l as [o| | | | | | |]; try by apply elem_of_nil in Hp'.
        destruct (job_of uid (messageDelay s) o) as [js|];
          [|by apply elem_of_nil in Hp'].
        simpl in Hp', Hjlt. apply list_elem_of_singleton in Hp'. lia.
      * destruct l as [o| | | | | | |]; try apply NoDup_nil_2.
        destruct (job_of uid (messageDelay s) o) as [js|];
          [apply NoDup_singleton|apply NoDup_nil_2].
Qed.

(** X3. On a context with a session the jobs enqueued in a run are, in
    the order of the calls, the jobs the send operations of the run ask
    for, one for each call, each with the explicit delay of the call or
    else with the default message delay in force when the call was made: a
    later [setMessageDelay] does not reach a job that is enqueued already.
    The default delay is the one of the last [setMessageDelay], and 1000
    before the first; and every job carries a promise of its own. *)
Theorem enqueued_jobs_follow_the_calls
    (uid : string) (ls : list label) (s : State) :
  run (constructor (Some uid)) ls = Some s →
  spec <$> enqueued (trace s) = requested uid 1000 ls ∧
  messageDelay s = foldl delay_after 1000%Z ls ∧
  NoDup (deferred <$> enqueued (trace s)).
Proof.
  intros Hrun.
  destruct (run_requested uid ls _ _ Hrun eq_refl) as [Hen Hmd].
  split_and!; [done..|].
  by destruct (run_own_promises uid ls _ _ Hrun eq_refl)
    as [_ ?]; [apply Forall_nil_2|apply NoDup_nil_2|].
Qed.

Lemma enqueued_jobs_follow_the_calls_witness :
  let ls := [Do (SendText "hi" None); Do (SetMessageDelay 250);
             Do (SendWithDelay "sendImage" 20 [VStr "cat.png"]);
             Do (Send "sendAudio" [VStr "a.mp3"]);
             Tick 1000; TimerFired; Do (SendTextWithDelay 5 "bye")] in
  ∃ s,
    run (constructor (Some "u1")) ls = Some s ∧
    spec <$> enqueued (trace s)
      = [text_job "u1" "hi" None 1000;
         send_job "sendImage" "u1" [VStr "cat.png"] 20;
         send_job "sendAudio" "u1" [VStr "a.mp3"] 250;
         text_job "u1" "bye" None 5] ∧
    messageDelay s = 250%Z ∧
    NoDup (deferred <$> enqueued (trace s)).
Proof.
  intros ls. eexists. split; [vm_compute; reflexivity|].
  apply (enqueued_jobs_follow_the_calls "u1" ls). vm_compute. reflexivity.
Defined.

(** ** What an activation of [typing] awaits *)

Lemma wait_ok_keeps s s' w :
  session s' = session s → keeps_settled (deferreds s) (deferreds s') →
  wait_ok s w → wait_ok s' w.
Proof.
  unfold wait_ok. intros -> Hkeep.
  destruct (session s), w as [p|c]; try done. apply Hkeep.
Qed.

Ltac ctx_eval_in H :=
  cbn beta iota zeta delta
    [app id ret bind exec get modify emit as_actor warning sleep client_call
     new_promise promise_resolve settle typingOn typingOff
     beforeEach_hook after_hook indicators default
     DelayableJobQueue.process_next DelayableJobQueue.enqueue
     DelayableJobQueue.invoke DelayableJobQueue.settled
     DelayableJobQueue.finish
     setMessageDelay _enqueue sendText sendTextWithDelay send sendWithDelay
     typing typing_on_settled typing_woke typing_off_settled returning call
     set_messageDelay set_queue set_phase set_typings set_deferreds set_now
     set_actor set_trace
     session messageDelay queue phase typings deferreds now actor trace
     fst snd spec deferred method args delay showIndicators
     time who what] in H.

Ltac typings_tac Hk :=
  ctx_eval; ctx_eval_in Hk;
  try (apply lookup_insert_Some in Hk as [[<- <-]|[_ Hk]]);
  try (apply lookup_delete_Some in Hk as [_ Hk]);
  first
    [ by left
    | right; unfold wait_ok; ctx_eval;
      first [ done
            | by apply list_lookup_middle
            | by rewrite <- app_assoc; apply list_lookup_middle ] ].

(** An activation found after a step was there before it, or the step has
    just brought it to where it is. *)
Lemma step_typings s l s' k0 tp :
  step s l = Some s' → typings s' !! k0 = Some tp →
  typings s !! k0 = Some tp ∨
  match tp with
  | AwaitOn _ w | AwaitOff w => wait_ok s' w
  | AwaitSleep _ _ => True
  end.
Proof.
  intros Hstep Hk0. by_rule Hstep; open_state s.
  - destruct o as [text [o|] | d text | | | ms | m ar | m d rest | d | js].
    all: destruct sess, ph, q as [|[[m1 a1 d1 [[]|]] p1] q];
      try destruct js as [? ? ? [[]|]]; typings_tac Hk0.
  - by left.
  - typings_tac Hk0.
  - destruct j as [[m1 a1 d1 [[]|]] p1], sess; typings_tac Hk0.
  - destruct j as [js p], sess, q as [|[[m1 a1 d1 [[]|]] p1] q];
      typings_tac Hk0.
  - destruct r'; typings_tac Hk0.
  - destruct sess; typings_tac Hk0.
  - destruct r'; typings_tac Hk0.
Qed.

Lemma step_waits s l s' : step s l = Some s' → waits_ok s → waits_ok s'.
Proof.
  intros Hstep Hw k tp Hk.
  destruct (step_typings _ _ _ _ _ Hstep Hk) as [Hold|Hnew]; [|done].
  pose proof (Hw _ _ Hold) as Hwait.
  destruct tp as [ms w|ms since|w]; [|done|];
    by apply (wait_ok_keeps s);
      [apply (step_session _ _ _ Hstep)|apply (step_keeps_settled _ _ _ Hstep)|].
Qed.

Lemma run_waits ls : ∀ s s', run s ls = Some s' → waits_ok s → waits_ok s'.
Proof.
  induction ls as [|l ls IH]; intros s s'; cbn [run].
  - by intros [= <-].
  - destruct (step s l) as [s1|] eqn:Hstep; [|done]. cbn [mbind option_bind].
    intros Hrun Hw. apply (IH _ _ Hrun). by apply (step_waits _ _ _ Hstep).
Qed.

Lemma reachable_waits sess ls s :
  run (constructor sess) ls = Some s → waits_ok s.
Proof.
  intros Hrun. apply (run_waits _ _ _ Hrun). intros k tp Hk.
  change (typings (constructor sess)) with (∅ : gmap nat TypingPhase) in Hk.
  by rewrite lookup_empty in Hk.
Qed.

(** ** Whom the calls on the client are for *)

Lemma send_names_client m : m ∈ send_names → m ∈ client_methods.
Proof. intros Hm. unfold client_methods. apply elem_of_app. by right. Qed.

Lemma sendText_is_send_name : "sendText" ∈ send_names.
Proof. left. Qed.

Lemma listed_is_send_name m :
  bool_decide (m ∈ sendMethods) = true → m ∈ send_names.
Proof. intros Hm%bool_decide_eq_true. by right. Qed.

Ltac addressed_tac :=
  unfold addressed, held; ctx_eval; trace_simpl; cbn [current app] in *;
  repeat match goal with
    | H : Forall _ (_ :: _) |- _ => apply Forall_cons in H as [? ?]
    | H : Forall _ (_ ++ _) |- _ => apply Forall_app in H as [? ?]
    | H : job_ok _ _ |- _ => destruct H
    | |- Forall _ (_ :: _) => apply Forall_cons_2
    | |- Forall _ (_ ++ _) => apply Forall_app_2
    | |- Forall _ [] => apply Forall_nil_2
    | |- _ ∧ _ => split
    | |- job_ok _ _ => split
    | |- call_ok _ _ => split
    end;
  cbn [method spec args fst snd] in *;
  first
    [ done
    | by left
    | by right; left
    | by apply send_names_client
    | by apply sendText_is_send_name
    | by apply listed_is_send_name
    | by eexists _, _ ].

(** A step within the public interface keeps the jobs and the calls to the
    user of the session. *)
Lemma step_addressed sess0 s l s' :
  step s l = Some s' → public_label l = true →
  addressed sess0 s → addressed sess0 s'.
Proof.
  intros Hstep Hl (Hsess & Hact & Hheld & Hcalls). unfold held in Hheld.
  by_rule Hstep; open_state s.
  - destruct o as [text [o|] | d text | | | ms | m ar | m d rest | d | js];
      try done.
    all: destruct sess0, ph, q as [|[[m1 a1 d1 [[]|]] p1] q];
      ctx_eval; try destruct (truthy o); addressed_tac.
  - addressed_tac.
  - addressed_tac.
  - destruct j as [[m1 a1 d1 [[]|]] p1], sess0; addressed_tac.
  - destruct j as [js p], sess0, q as [|[[m1 a1 d1 [[]|]] p1] q];
      addressed_tac.
  - destruct r'; addressed_tac.
  - destruct sess0; addressed_tac.
  - destruct r'; addressed_tac.
Qed.

Lemma run_addressed sess ls : ∀ s s',
  run s ls = Some s' → Forall (λ l, public_label l = true) ls →
  addressed sess s → addressed sess s'.
Proof.
  induction ls as [|l ls IH]; intros s s'; cbn [run].
  - by intros [= <-].
  - destruct (step s l) as [s1|] eqn:Hstep; [|done]. cbn [mbind option_bind].
    intros Hrun [Hl Hls]%Forall_cons Hadd.
    apply (IH _ _ Hrun Hls). by apply (step_addressed _ _ _ _ Hstep).
Qed.

Lemma addressed_constructor sess : addressed sess (constructor sess).
Proof. unfold addressed. split_and!; try done; apply Forall_nil_2. Qed.

(** X4. In a run in which the caller keeps to the public operations, every
    call the context makes on the client is a call of [typingOn],
    [typingOff], [sendText] or one of the listed send methods, and has the
    user id of the session as its first argument; a context without a
    session, then, calls nothing.  The jobs the queue holds are of the
    same kind. *)
Theorem calls_are_for_the_user_of_the_session
    (sess : option string) (ls : list label) (s : State) :
  run (constructor sess) ls = Some s →
  Forall (λ l, public_label l = true) ls →
  Forall (λ c, c.1 ∈ client_methods ∧
               ∃ uid rest, sess = Some uid ∧ c.2 = VStr uid :: rest)
         (client_calls (trace s)) ∧
  Forall (λ j, method (spec j) ∈ send_names ∧
               ∃ uid rest, sess = Some uid ∧ args (spec j) = VStr uid :: rest)
         (held s).
Proof.
  intros Hrun Hpub.
  by destruct (run_addressed sess ls _ _ Hrun Hpub (addressed_constructor sess))
    as (_ & _ & Hheld & Hcalls).
Qed.

Lemma calls_are_for_the_user_of_the_session_witness :
  let ls := [Do (SendText "hi" None); Do TypingOn; Do (Typing 100);
             Do (Send "sendImage" [VStr "cat.png"]);
             Tick 1000; TimerFired; ActionSettled (Rejected (VStr "no"));
             AfterDone; Do TypingOff] in
  ∃ s,
    run (constructor (Some "u1")) ls = Some s ∧
    Forall (λ l, public_label l = true) ls ∧
    Forall (λ c, c.1 ∈ client_methods ∧
                 ∃ uid rest, Some "u1" = Some uid ∧ c.2 = VStr uid :: rest)
           (client_calls (trace s)) ∧
    Forall (λ j, method (spec j) ∈ send_names ∧
                 ∃ uid rest, Some "u1" = Some uid ∧
                             args (spec j) = VStr uid :: rest)
           (held s).
Proof.
  intros ls. eexists. split; [vm_compute; reflexivity|].
  assert (Forall (λ l, public_label l = true) ls) as Hpub.
  { repeat constructor. }
  split; [exact Hpub|].
  apply (calls_are_for_the_user_of_the_session (Some "u1") ls); [|exact Hpub].
  vm_compute. reflexivity.
Defined.

(** ** A context without a session *)

Lemma inert_constructor : inert (constructor None).
Proof. unfold inert. by split_and!. Qed.

Ltac promises_tac Hres :=
  let p := fresh "p" in
  let d := fresh "d" in
  let Hp := fresh "Hp" in
  intros p d Hp; ctx_eval_in Hp;
  repeat match type of Hp with
    | (_ ++ _) !! _ = Some _ =>
        apply lookup_app_Some in Hp as [Hp|[? Hp]]
    | (_ :: _) !! _ = Some _ =>
        apply lookup_cons_Some in Hp as [[? <-]|[? Hp]]
    | [] !! _ = Some _ => by rewrite lookup_nil in Hp
    | <[_ := _]> _ !! _ = Some _ =>
        apply list_lookup_insert_Some in Hp as [(<- & <- & _)|[? Hp]]
    end;
  first
    [ by left
    | right; split; [done|];
      rewrite ?length_app in *; cbn [length] in *;
      apply lookup_insert_is_Some'; left; lia
    | destruct (Hres _ _ Hp) as [->|[-> ?]];
      [ by left
      | right; split; [done|];
        first [ done
              | by apply lookup_insert_is_Some'; right
              | by apply lookup_delete_is_Some ] ] ].

(** A step of a context without a session, the caller keeping to the
    public operations. *)
Lemma step_inert s l s' :
  step s l = Some s' → public_label l = true →
  waits_ok s →
  (∀ k, is_Some (typings s !! k) → deferreds s !! k = Some Pending) →
  inert s →
  inert s' ∧ warnings (trace s') = warnings (trace s) ++ reported None l.
Proof.
  intros Hstep Hl Hw Hty (Hsess & Hact & Hphase & Hq & Hen & Hcalls & Hres).
  unfold inert, resolved_or_animating in *.
  by_rule Hstep; open_state s; try done.
  - destruct o as [text [o|] | d text | | | ms | m ar | m d rest | d | js];
      try done; ctx_eval; trace_simpl;
      cbn [reported session_scoped op_name app]; rewrite <- ?app_assoc;
      (split_and!; try done); promises_tac Hres.

  - split_and!; try done. by rewrite app_nil_r.
  - pose proof (Hw _ _ Hk) as Hwait. unfold wait_ok in Hwait.
    cbn [session deferreds] in Hwait. destruct w as [p0|]; [|done].
    unfold awaited in Hr. cbn [deferreds] in Hr. rewrite Hwait in Hr.
    injection Hr as <-. ctx_eval. trace_simpl.
    (split_and!; try done); promises_tac Hres.
  - ctx_eval. trace_simpl. (split_and!; try done); promises_tac Hres.
  - pose proof (Hw _ _ Hk) as Hwait. unfold wait_ok in Hwait.
    cbn [session deferreds] in Hwait. destruct w as [p0|]; [|done].
    unfold awaited in Hr. cbn [deferreds] in Hr. rewrite Hwait in Hr.
    injection Hr as <-.
    pose proof (Hty k ltac:(by rewrite Hk)) as Hpend. cbn [deferreds] in Hpend.
    ctx_eval. rewrite Hpend. trace_simpl.
    (split_and!; try done); promises_tac Hres.
Qed.

Lemma run_inert ls : ∀ s s',
  run s ls = Some s' → Forall (λ l, public_label l = true) ls →
  waits_ok s → promises_ok s → inert s →
  inert s' ∧
  warnings (trace s') = warnings (trace s) ++ flat_map (reported None) ls.
Proof.
  induction ls as [|l ls IH]; intros s s'; cbn [run flat_map].
  - intros [= <-] _ _ _ Hin. by rewrite app_nil_r.
  - destruct (step s l) as [s1|] eqn:Hstep; [|done]. cbn [mbind option_bind].
    intros Hrun [Hl Hls]%Forall_cons Hw Hok Hin.
    destruct (step_inert _ _ _ Hstep Hl Hw) as [Hin1 Hwarn1]; [|done|].
    { intros k Hk. destruct Hok as (_ & _ & Hty & _). by apply Hty. }
    destruct (IH _ _ Hrun Hls) as [Hin' ->];
      [by apply (step_waits _ _ _ Hstep)
      |by apply (step_promises _ _ _ Hstep)|done|].
    by rewrite Hwarn1, <- app_assoc.
Qed.

Lemma reachable_inert ls s :
  run (constructor None) ls = Some s →
  Forall (λ l, public_label l = true) ls →
  inert s ∧ warnings (trace s) = flat_map (reported None) ls.
Proof.
  intros Hrun Hpub.
  apply (run_inert ls _ _ Hrun Hpub).
  - apply (reachable_waits None []). done.
  - apply promises_constructor.
  - apply inert_constructor.
Qed.

(** ** The warnings of a run *)

(** A step of a context with a session warns of a deprecation, if of
    anything. *)
Lemma step_reported uid s l s' :
  step s l = Some s' → session s = Some uid →
  warnings (trace s') = warnings (trace s) ++ reported (Some uid) l.
Proof.
  intros Hstep Hsess. by_rule Hstep; open_state s.
  - destruct o as [text [o|] | d text | | | ms | m ar | m d rest | d | js].
    all: destruct ph, q as [|[[m1 a1 d1 [[]|]] p1] q];
      try destruct js as [? ? ? [[]|]];
      ctx_eval; try destruct (truthy o); ctx_eval; trace_simpl;
      cbn [reported app]; by rewrite ?app_nil_r.
  - simpl. by rewrite app_nil_r.
  - ctx_eval. trace_simpl. done.
  - destruct j as [[m1 a1 d1 [[]|]] p1]; ctx_eval; trace_simpl; done.
  - destruct j as [js p], q as [|[[m1 a1 d1 [[]|]] p1] q];
      ctx_eval; trace_simpl; done.
  - destruct r'; ctx_eval; trace_simpl; done.
  - ctx_eval; trace_simpl; done.
  - destruct r'; ctx_eval; trace_simpl; done.
Qed.

Lemma run_reported uid ls : ∀ s s',
  run s ls = Some s' → session s = Some uid →
  warnings (trace s') = warnings (trace s) ++ flat_map (reported (Some uid)) ls.
Proof.
  induction ls as [|l ls IH]; intros s s'; cbn [run flat_map].
  - intros [= <-] _. by rewrite app_nil_r.
  - destruct (step s l) as [s1|] eqn:Hstep; [|done]. cbn [mbind option_bind].
    intros Hrun Hsess.
    rewrite (IH _ _ Hrun) by (by rewrite (step_session _ _ _ Hstep)).
    by rewrite (step_reported _ _ _ _ Hstep Hsess), <- app_assoc.
Qed.

(** X5. In a run in which the caller keeps to the public operations the
    warnings reported are, in order, those of the steps of the run.  On a
    context with a session: one deprecation warning for each call of a
    generated [WithDelay] variant, and nothing else.  On a context without
    a session, besides these: one session-missing warning for each call of
    a session-scoped operation, under the name of the operation; and for
    [typing], which has none of its own, the session-missing warning of
    [typingOn] at the call and the one of [typingOff] when the sleep is
    over. *)
Theorem warnings_are_those_of_the_calls
    (sess : option string) (ls : list label) (s : State) :
  run (constructor sess) ls = Some s →
  Forall (λ l, public_label l = true) ls →
  warnings (trace s) = flat_map (reported sess) ls.
Proof.
  intros Hrun Hpub. destruct sess as [uid|].
  - by rewrite (run_reported uid ls _ _ Hrun).
  - by destruct (reachable_inert ls s Hrun Hpub).
Qed.

Lemma warnings_are_those_of_the_calls_witness :
  let ls := [Do (SendText "hi" None);
             Do (SendWithDelay "sendImage" 20 [VStr "cat.png"]);
             Do (Typing 100); AnimOnSettled 2 (Resolved VUndef);
             Tick 100; AnimTimerFired 2] in
  ∃ s,
    run (constructor None) ls = Some s ∧
    Forall (λ l, public_label l = true) ls ∧
    warnings (trace s)
      = ["sendText: should not be called in context without session";
         "sendImageWithDelay is deprecated.";
         "sendImageWithDelay: should not be called in context without session";
         "typingOn: should not be called in context without session";
         "typingOff: should not be called in context without session"].
Proof.
  intros ls. eexists. split; [vm_compute; reflexivity|].
  assert (Forall (λ l, public_label l = true) ls) as Hpub.
  { repeat constructor. }
  split; [exact Hpub|].
  apply (warnings_are_those_of_the_calls None ls); [|exact Hpub].
  vm_compute. reflexivity.
Defined.

(** X6. A context without a session, the caller keeping to the public
    operations, never enqueues a job, never calls the client and never
    rejects a promise: every promise it has made is resolved with
    undefined, or is the pending promise of an activation of [typing] that
    is under way.  Its queue holds nothing, and no step of the queue is
    there to take. *)
Theorem no_session_nothing_sent (ls : list label) (s : State) :
  run (constructor None) ls = Some s →
  Forall (λ l, public_label l = true) ls →
  enqueued (trace s) = [] ∧
  held s = [] ∧
  client_calls (trace s) = [] ∧
  resolved_or_animating s ∧
  step s TimerFired = None ∧
  (∀ r, step s (ActionSettled r) = None) ∧
  step s AfterDone = None.
Proof.
  intros Hrun Hpub.
  destruct (reachable_inert ls s Hrun Hpub)
    as [(_ & _ & Hph & Hq & Hen & Hcalls & Hres) _].
  unfold held, step. rewrite Hph, Hq. by split_and!.
Qed.

Lemma no_session_nothing_sent_witness :
  let ls := [Do (SendText "hi" None);
             Do (SendWithDelay "sendImage" 20 [VStr "cat.png"]);
             Do (Typing 100); AnimOnSettled 2 (Rejected (VStr "no"));
             Tick 100; AnimTimerFired 2; Do TypingOn] in
  ∃ s,
    run (constructor None) ls = Some s ∧
    Forall (λ l, public_label l = true) ls ∧
    enqueued (trace s) = [] ∧
    held s = [] ∧
    client_calls (trace s) = [] ∧
    resolved_or_animating s ∧
    step s TimerFired = None ∧
    (∀ r, step s (ActionSettled r) = None) ∧
    step s AfterDone = None.
Proof.
  intros ls. eexists. split; [vm_compute; reflexivity|].
  assert (Forall (λ l, public_label l = true) ls) as Hpub.
  { repeat constructor. }
  split; [exact Hpub|].
  apply (no_session_nothing_sent ls); [|exact Hpub].
  vm_compute. reflexivity.
Defined.

(** ** The promise of [typing] *)

Lemma awaited_indicator s w r :
  wait_ok s w → awaited s w r = Some (indicator_outcome (session s) r).
Proof.
  unfold wait_ok, awaited, indicator_outcome.
  destruct (session s), w as [p|c]; try done. by intros ->.
Qed.

Lemma queue_frame_refl s : queue_frame s s.
Proof. unfold queue_frame. split_and!; (done || lia). Qed.

Lemma queue_frame_trans s1 s2 s3 :
  queue_frame s1 s2 → queue_frame s2 s3 → queue_frame s1 s3.
Proof.
  intros (? & ? & ? & ? & ? & ? & ?) (? & ? & ? & ? & ? & ? & ?).
  unfold queue_frame. split_and!; (congruence || lia).
Qed.

(** The step an activation of [typing] is waiting for is there to take,
    and this is what it does to the activation and to its promise. *)
Lemma typing_steps s k tp :
  waits_ok s → typings s !! k = Some tp → deferreds s !! k = Some Pending →
  match tp with
  | AwaitOn ms _ => ∀ r,
      ∃ s', step s (AnimOnSettled k r) = Some s' ∧ now s' = now s ∧
        match indicator_outcome (session s) r with
        | Resolved _ =>
            typings s' !! k = Some (AwaitSleep ms (now s)) ∧
            deferreds s' !! k = Some Pending
        | Rejected e =>
            typings s' !! k = None ∧
            deferreds s' !! k = Some (Settled (Rejected e)) ∧
            trace s' = trace s ++
              [Entry (now s) (Animation k) (Returned (Rejected e))]
        end
  | AwaitSleep ms since =>
      (since + ms ≤ now s)%Z →
      ∃ s' w, step s (AnimTimerFired k) = Some s' ∧ now s' = now s ∧
        typings s' !! k = Some (AwaitOff w) ∧
        deferreds s' !! k = Some Pending
  | AwaitOff _ => ∀ r,
      ∃ s', step s (AnimOffSettled k r) = Some s' ∧ now s' = now s ∧
        typings s' !! k = None ∧
        deferreds s' !! k
          = Some (Settled (async_result (indicator_outcome (session s) r)))
  end.
Proof.
  intros Hw Hk Hpend. pose proof (Hw _ _ Hk) as Hwait.
  pose proof (lookup_lt_Some _ _ _ Hpend) as Hlt.
  destruct tp as [ms w|ms since|w].
  - intros r. unfold step. rewrite Hk, (awaited_indicator _ _ r Hwait).
    cbn [mbind option_bind]. eexists. split; [done|].
    destruct s as [sess md q ph ty ds t a tr]. cbn [session] in *.
    destruct (indicator_outcome sess r) as [v|e]; ctx_eval.
    + by rewrite lookup_insert_eq.
    + cbn [deferreds] in Hpend. rewrite Hpend, lookup_delete_eq.
      by rewrite list_lookup_insert_eq.
  - intros Hdue. unfold step. rewrite Hk.
    rewrite (proj2 (Z.leb_le _ _) Hdue).
    destruct s as [sess md q ph ty ds t a tr]. cbn [deferreds] in *.
    destruct sess; eexists _, _; (split; [done|]); ctx_eval;
      rewrite lookup_insert_eq; split_and!; try done.
    by apply lookup_app_l_Some.
  - intros r. unfold step. rewrite Hk, (awaited_indicator _ _ r Hwait).
    cbn [mbind option_bind]. eexists. split; [done|].
    destruct s as [sess md q ph ty ds t a tr]. cbn [session deferreds] in *.
    destruct (indicator_outcome sess r) as [v|e]; ctx_eval;
      rewrite Hpend, lookup_delete_eq; by rewrite list_lookup_insert_eq.
Qed.

(** X7. The promise [typing] returns is pending as long as the activation
    is under way, and the step the activation waits for is there to take.
    When the awaited [typingOn()] comes back rejected, the promise rejects
    with the same error and nothing more is done: no sleep, no
    [typingOff()].  When it comes back resolved, the sleep starts.  When
    the awaited [typingOff()] comes back, the promise resolves with
    undefined, or rejects with the error of the call.  On a context without
    a session both calls come back resolved, no call on the client having
    been made. *)
Theorem typing_promise_follows_the_signals
    (sess : option string) (ls : list label) (s : State)
    (k : nat) (tp : TypingPhase) :
  run (constructor sess) ls = Some s →
  typings s !! k = Some tp →
  deferreds s !! k = Some Pending ∧
  match tp with
  | AwaitOn ms _ => ∀ r,
      ∃ s', step s (AnimOnSettled k r) = Some s' ∧ now s' = now s ∧
        match indicator_outcome sess r with
        | Resolved _ =>
            typings s' !! k = Some (AwaitSleep ms (now s)) ∧
            deferreds s' !! k = Some Pending
        | Rejected e =>
            typings s' !! k = None ∧
            deferreds s' !! k = Some (Settled (Rejected e)) ∧
            trace s' = trace s ++
              [Entry (now s) (Animation k) (Returned (Rejected e))]
        end
  | AwaitSleep ms since =>
      (since + ms ≤ now s)%Z →
      ∃ s' w, step s (AnimTimerFired k) = Some s' ∧ now s' = now s ∧
        typings s' !! k = Some (AwaitOff w) ∧
        deferreds s' !! k = Some Pending
  | AwaitOff _ => ∀ r,
      ∃ s', step s (AnimOffSettled k r) = Some s' ∧ now s' = now s ∧
        typings s' !! k = None ∧
        deferreds s' !! k
          = Some (Settled (async_result (indicator_outcome sess r)))
  end.
Proof.
  intros Hrun Hk.
  assert (deferreds s !! k = Some Pending) as Hpend.
  { destruct (reachable_promises _ _ _ Hrun) as (_ & _ & Hty & _).
    by apply Hty. }
  split; [done|]. rewrite <- (reachable_session _ _ _ Hrun).
  apply typing_steps; [by apply (reachable_waits sess ls)|done..].
Qed.

Lemma typing_promise_follows_the_signals_witness :
  let ls := [Do (Typing 500)] in
  ∃ s,
    run (constructor (Some "u1")) ls = Some s ∧
    typings s !! 0 = Some (AwaitOn 500 (Client 0)) ∧
    deferreds s !! 0 = Some Pending ∧
    ∀ r, ∃ s',
      step s (AnimOnSettled 0 r) = Some s' ∧ now s' = now s ∧
      match r with
      | Resolved _ =>
          typings s' !! 0 = Some (AwaitSleep 500 (now s)) ∧
          deferreds s' !! 0 = Some Pending
      | Rejected e =>
          typings s' !! 0 = None ∧
          deferreds s' !! 0 = Some (Settled (Rejected e)) ∧
          trace s' = trace s ++
            [Entry (now s) (Animation 0) (Returned (Rejected e))]
      end.
Proof.
  intros ls. eexists. split; [vm_compute; reflexivity|].
  split; [vm_compute; reflexivity|].
  apply (typing_promise_follows_the_signals (Some "u1") ls _ 0
           (AwaitOn 500 (Client 0))); vm_compute; reflexivity.
Defined.

(** ** An activation of [typing] comes to its end *)

Lemma tick_frame s ms :
  (0 ≤ ms)%Z →
  step s (Tick ms) = Some (set_now (now s + ms)%Z s) ∧
  queue_frame s (set_now (now s + ms)%Z s).
Proof.
  intros Hms. split.
  - unfold step. by rewrite (proj2 (Z.leb_le _ _) Hms).
  - destruct s as [sess md q ph ty ds t a tr]. unfold queue_frame.
    ctx_eval. split_and!; (done || lia).
Qed.

(** From [await this.typingOff()]. *)
Lemma typing_ends_from_off s k w :
  waits_ok s → actor s = User →
  typings s !! k = Some (AwaitOff w) → deferreds s !! k = Some Pending →
  ∃ s', run s (see_typing_through k (AwaitOff w) (now s)) = Some s' ∧
    typings s' !! k = None ∧
    deferreds s' !! k = Some (Settled (Resolved VUndef)) ∧
    queue_frame s s'.
Proof.
  intros Hw Hact Hk Hpend.
  destruct (typing_steps s k _ Hw Hk Hpend (Resolved VUndef))
    as (s' & Hstep & _ & Hk' & Hd').
  exists s'. cbn [see_typing_through]. rewrite (run_cons _ _ _ _ Hstep).
  split_and!; [done|done| |by apply (typing_step_frame _ (AnimOffSettled k (Resolved VUndef)) _
                  eq_refl Hact Hstep)].
  rewrite Hd'. by destruct (session s).
Qed.

(** From [await sleep(milliseconds)]. *)
Lemma typing_ends_from_sleep s k ms since :
  waits_ok s → actor s = User →
  typings s !! k = Some (AwaitSleep ms since) →
  deferreds s !! k = Some Pending →
  ∃ s', run s (see_typing_through k (AwaitSleep ms since) (now s)) = Some s' ∧
    typings s' !! k = None ∧
    deferreds s' !! k = Some (Settled (Resolved VUndef)) ∧
    queue_frame s s'.
Proof.
  intros Hw Hact Hk Hpend. cbn [see_typing_through].
  set (d := Z.max 0 (since + ms - now s)).
  destruct (tick_frame s d ltac:(lia)) as [Hs1 Hf1].
  set (s1 := set_now (now s + d)%Z s) in *.
  pose proof (step_waits _ _ _ Hs1 Hw) as Hw1.
  assert (typings s1 !! k = Some (AwaitSleep ms since)) as Hk1 by done.
  assert (deferreds s1 !! k = Some Pending) as Hp1 by done.
  assert (actor s1 = User) as Ha1 by done.
  destruct (typing_steps s1 k _ Hw1 Hk1 Hp1) as (s2 & w & Hs2 & Ht2 & Hk2 & Hp2).
  { subst s1. cbn [now set_now]. lia. }
  pose proof (typing_step_frame _ (AnimTimerFired k) _ eq_refl Ha1 Hs2)
    as Hf2.
  pose proof (step_waits _ _ _ Hs2 Hw1) as Hw2.
  assert (actor s2 = User) as Ha2.
  { destruct Hf2 as (_ & -> & _). done. }
  destruct (typing_ends_from_off s2 k w Hw2 Ha2 Hk2 Hp2)
    as (s3 & Hs3 & Hk3 & Hp3 & Hf3).
  exists s3. rewrite (run_cons _ _ _ _ Hs1), (run_cons _ _ _ _ Hs2).
  split_and!; [done..|].
  by apply (queue_frame_trans _ s1), (queue_frame_trans _ s2).
Qed.

(** From [await this.typingOn()]. *)
Lemma typing_ends_from_on s k ms w :
  waits_ok s → actor s = User →
  typings s !! k = Some (AwaitOn ms w) → deferreds s !! k = Some Pending →
  ∃ s', run s (see_typing_through k (AwaitOn ms w) (now s)) = Some s' ∧
    typings s' !! k = None ∧
    deferreds s' !! k = Some (Settled (Resolved VUndef)) ∧
    queue_frame s s'.
Proof.
  intros Hw Hact Hk Hpend. cbn [see_typing_through].
  destruct (typing_steps s k _ Hw Hk Hpend (Resolved VUndef))
    as (s1 & Hs1 & Ht1 & Hres).
  assert (typings s1 !! k = Some (AwaitSleep ms (now s)) ∧
          deferreds s1 !! k = Some Pending) as [Hk1 Hp1].
  { by destruct (session s). }
  pose proof (typing_step_frame _ (AnimOnSettled k (Resolved VUndef)) _
                eq_refl Hact Hs1) as Hf1.
  pose proof (step_waits _ _ _ Hs1 Hw) as Hw1.
  assert (actor s1 = User) as Ha1.
  { destruct Hf1 as (_ & -> & _). done. }
  destruct (typing_ends_from_sleep s1 k ms (now s) Hw1 Ha1 Hk1 Hp1)
    as (s2 & Hs2 & Hk2 & Hp2 & Hf2).
  exists s2. rewrite (run_cons _ _ _ _ Hs1).
  cbn [see_typing_through] in Hs2. rewrite Ht1 in Hs2.
  replace (now s + ms - now s)%Z with ms in Hs2 by lia.
  split_and!; [done..|]. by apply (queue_frame_trans _ s1).
Qed.

(** X8. An activation of [typing] that is under way can always be brought
    to its end by the environment alone: the client resolving the calls and
    time passing take it to the resolution of its promise with undefined,
    whatever the queue is doing and without moving the queue. *)
Theorem typing_runs_to_its_end
    (sess : option string) (ls : list label) (s : State)
    (k : nat) (tp : TypingPhase) :
  run (constructor sess) ls = Some s →
  typings s !! k = Some tp →
  ∃ s',
    run s (see_typing_through k tp (now s)) = Some s' ∧
    Forall (λ l, env_label l = true) (see_typing_through k tp (now s)) ∧
    typings s' !! k = None ∧
    deferreds s' !! k = Some (Settled (Resolved VUndef)) ∧
    queue_frame s s'.
Proof.
  intros Hrun Hk.
  assert (Forall (λ l, env_label l = true) (see_typing_through k tp (now s)))
    as Henv.
  { destruct tp; repeat constructor. }
  cut (∃ s', run s (see_typing_through k tp (now s)) = Some s' ∧
             typings s' !! k = None ∧
             deferreds s' !! k = Some (Settled (Resolved VUndef)) ∧
             queue_frame s s').
  { intros (s' & ? & ? & ? & ?). by exists s'. }
  pose proof (reachable_waits _ _ _ Hrun) as Hw.
  destruct (reachable_inv _ _ _ Hrun) as (_ & Hact & _).
  assert (deferreds s !! k = Some Pending) as Hpend.
  { destruct (reachable_promises _ _ _ Hrun) as (_ & _ & Hty & _).
    by apply Hty. }
  destruct tp as [ms w|ms since|w].
  - by apply typing_ends_from_on.
  - by apply typing_ends_from_sleep.
  - by apply typing_ends_from_off.
Qed.

Lemma typing_runs_to_its_end_witness :
  let ls := [Do (SendText "hi" None); Do (Typing 500);
             AnimOnSettled 1 (Resolved VUndef)] in
  ∃ s,
    run (constructor (Some "u1")) ls = Some s ∧
    typings s !! 1 = Some (AwaitSleep 500 0) ∧
    see_typing_through 1 (AwaitSleep 500 0) (now s)
      = [Tick 500; AnimTimerFired 1; AnimOffSettled 1 (Resolved VUndef)] ∧
    ∃ s',
      run s (see_typing_through 1 (AwaitSleep 500 0) (now s)) = Some s' ∧
      Forall (λ l, env_label l = true)
        (see_typing_through 1 (AwaitSleep 500 0) (now s)) ∧
      typings s' !! 1 = None ∧
      deferreds s' !! 1 = Some (Settled (Resolved VUndef)) ∧
      queue_frame s s'.
Proof.
  intros ls. eexists. split; [vm_compute; reflexivity|].
  split; [vm_compute; reflexivity|]. split; [vm_compute; reflexivity|].
  apply (typing_runs_to_its_end (Some "u1") ls _ 1 (AwaitSleep 500 0));
    vm_compute; reflexivity.
Defined.

(** ** The times of a trace *)

Ltac appends_tac :=
  ctx_eval; rewrite <- ?app_assoc;
  first [ exists []; split; [by rewrite app_nil_r|]
        | eexists; split; [reflexivity|] ];
  (split; [lia|]); cbn [app];
  repeat (apply Forall_cons_2 || apply Forall_nil_2);
  unfold told_by_queue; cbn [time who what job_of_origin];
  (split_and!;
   [ done
   | let p := fresh "p" in intros p [= <-];
     cbn [current app fmap list_fmap deferred];
     first [ by left | by right; left ]
   | let j := fresh "j" in intros j [= <-]; done
   | done ]).

(** What a step adds to the trace. *)
Lemma step_appends s l s' :
  step s l = Some s' → actor s = User →
  ∃ new, trace s' = trace s ++ new ∧ (now s ≤ now s')%Z ∧
    Forall (λ e,
      time e = now s ∧
      (∀ p, job_of_origin (who e) = Some p →
            p ∈ deferred <$> (current (phase s) ++ current (phase s'))) ∧
      (∀ j, what e = Enqueued j → deferred j = length (deferreds s)) ∧
      told_by_queue e) new.
Proof.
  intros Hstep Hact. by_rule Hstep; open_state s.
  - destruct o as [text [o|] | d text | | | ms | m ar | m d rest | d | js].
    all: destruct sess, ph, q as [|[[m1 a1 d1 [[]|]] p1] q];
      try destruct js as [? ? ? [[]|]];
      ctx_eval; try destruct (truthy o); appends_tac.
  - appends_tac.
  - appends_tac.
  - destruct j as [[m1 a1 d1 [[]|]] p1], sess; appends_tac.
  - destruct j as [js p], sess, q as [|[[m1 a1 d1 [[]|]] p1] q]; appends_tac.
  - destruct r'; appends_tac.
  - destruct sess; appends_tac.
  - destruct r'; appends_tac.
Qed.














(** ** The indicator operations, called directly *)

(** X10. On a context with a session [typingOn()] and [typingOff()] pass
    the call through: they call the method of the same name on the client,
    for the user of the session and at once, whatever the queue is doing,
    and hand back the promise of that very call, so that what the caller
    awaits is what the client settles it with.  Nothing is reported or
    enqueued, no promise is made, and the queue and the activations of
    [typing] are left as they are. *)
Theorem indicator_calls_pass_through
    (uid : string) (ls : list label) (s : State) (o : Op) (name : string) :
  run (constructor (Some uid)) ls = Some s →
  (o, name) ∈ [(TypingOn, "typingOn"); (TypingOff, "typingOff")] →
  (call o s).1 = Some (Client (length (trace s))) ∧
  trace (call o s).2 = trace s ++ [Entry (now s) User (Called name [VStr uid])] ∧
  (∀ r, awaited (call o s).2 (Client (length (trace s))) r = Some r) ∧
  queue_frame s (call o s).2 ∧
  deferreds (call o s).2 = deferreds s ∧
  typings (call o s).2 = typings s ∧
  messageDelay (call o s).2 = messageDelay s.
Proof.
  intros Hrun Ho.
  destruct (reachable_inv _ _ _ Hrun) as (Hsess & Hact & _).
  destruct s as [sess md q ph ty ds t a tr]. simpl in Hsess, Hact. subst.
  apply elem_of_cons in Ho as [[= -> ->]|Ho];
    [|apply list_elem_of_singleton in Ho as [= -> ->]].
  all: unfold queue_frame; ctx_eval; trace_simpl; split_and!; (done || lia).
Qed.

Lemma indicator_calls_pass_through_witness :
  let ls := [Do (SendText "hi" None); Tick 1000; TimerFired] in
  ∃ s,
    run (constructor (Some "u1")) ls = Some s ∧
    (TypingOff, "typingOff")
      ∈ [(TypingOn, "typingOn"); (TypingOff, "typingOff")] ∧
    (call TypingOff s).1 = Some (Client (length (trace s))) ∧
    trace (call TypingOff s).2
      = trace s ++ [Entry (now s) User (Called "typingOff" [VStr "u1"])] ∧
    (∀ r, awaited (call TypingOff s).2 (Client (length (trace s))) r
          = Some r) ∧
    queue_frame s (call TypingOff s).2 ∧
    deferreds (call TypingOff s).2 = deferreds s ∧
    typings (call TypingOff s).2 = typings s ∧
    messageDelay (call TypingOff s).2 = messageDelay s.
Proof.
  intros ls. eexists. split; [vm_compute; reflexivity|].
  assert ((TypingOff, "typingOff")
            ∈ [(TypingOn, "typingOn"); (TypingOff, "typingOff")]) as Ho.
  { right. left. }
  split; [exact Ho|].
  apply (indicator_calls_pass_through "u1" ls _ TypingOff "typingOff");
    [|exact Ho].
  vm_compute. reflexivity.
Defined.

(** ** The promise of a job the queue holds *)

(** X11. The promise [_enqueue] returns for a job is pending as long as
    the queue holds the job, in every run; it is so when the action of the
    job has settled already and the after hook has not completed yet.  The
    jobs the queue holds have promises of their own, which no activation
    of [typing] shares. *)
Theorem promise_is_pending_while_the_job_is_held
    (sess : option string) (ls : list label) (s : State) :
  run (constructor sess) ls = Some s →
  (∀ j, j ∈ held s → deferreds s !! deferred j = Some Pending) ∧
  (∀ j r, phase s = Finishing j r →
          deferreds s !! deferred j = Some Pending) ∧
  NoDup (deferred <$> held s) ∧
  (∀ k, is_Some (typings s !! k) → k ∉ deferred <$> held s).
Proof.
  intros Hrun.
  destruct (reachable_promises _ _ _ Hrun) as (Hnd & Hheld & Hty & _).
  split_and!; [done| |done|by intros k Hk; apply Hty].
  intros j r Hph. apply Hheld. unfold held. rewrite Hph. left.
Qed.

Lemma promise_is_pending_while_the_job_is_held_witness :
  let ls := [Do (SendText "A" None); Do (Typing 100); Do (SendText "B" None);
             Tick 1000; TimerFired; ActionSettled (Resolved (VStr "ok"))] in
  ∃ s,
    run (constructor (Some "u1")) ls = Some s ∧
    (∀ j, j ∈ held s → deferreds s !! deferred j = Some Pending) ∧
    (∀ j r, phase s = Finishing j r →
            deferreds s !! deferred j = Some Pending) ∧
    NoDup (deferred <$> held s) ∧
    (∀ k, is_Some (typings s !! k) → k ∉ deferred <$> held s).
Proof.
  intros ls. eexists. split; [vm_compute; reflexivity|].
  apply (promise_is_pending_while_the_job_is_held (Some "u1") ls).
  vm_compute. reflexivity.
Defined.

(** ** The order of the callbacks *)

Lemma run_told sess ls : ∀ s s',
  run s ls = Some s' → inv sess s →
  Forall told_by_queue (trace s) → Forall told_by_queue (trace s').
Proof.
  induction ls as [|l ls IH]; intros s s'; cbn [run].
  - by intros [= <-].
  - destruct (step s l) as [s1|] eqn:Hstep; [|done]. cbn [mbind option_bind].
    intros Hrun Hinv Htold.
    apply (IH _ _ Hrun); [by apply (step_inv _ _ _ _ Hstep)|].
    destruct (step_appends _ _ _ Hstep) as (new & -> & _ & Hnew).
    { by destruct Hinv as (_ & ? & _). }
    apply Forall_app. split; [done|].
    eapply Forall_impl; [exact Hnew|]. by intros e (_ & _ & _ & ?).
Qed.

Lemma notified_by_queue tr :
  Forall told_by_queue tr → notified (queue_trace tr) = notified tr.
Proof.
  induction 1 as [|e tr He Htr IH]; [done|].
  unfold queue_trace. rewrite filter_cons. fold (queue_trace tr).
  unfold told_by_queue in He. destruct e as [t w ev]. cbn [what] in He.
  unfold notified in *.
  destruct ev; case_decide as Hq; simpl;
    first [exact IH | f_equal; exact IH | by destruct Hq].
Qed.

Lemma delivery_of_episode sess ep : notified (episode sess ep) = [delivery ep].
Proof.
  destruct ep as [[[m a d ind] p] t0 t1 t2 r t3].
  by destruct ind as [[]|], sess.
Qed.

Lemma notified_app tr1 tr2 :
  notified (tr1 ++ tr2) = notified tr1 ++ notified tr2.
Proof. apply omap_app. Qed.

Lemma deliveries_done sess done :
  notified (flat_map (episode sess) done) = delivery <$> done.
Proof.
  induction done as [|ep done IH]; [done|]. cbn [flat_map fmap list_fmap].
  by rewrite notified_app, IH, delivery_of_episode.
Qed.

(** The caller of the job in progress has not been told yet. *)
Lemma in_progress_untold sess ph t cur :
  in_progress sess ph t cur → notified cur = [].
Proof.
  destruct ph as [|[[m a d ind] p] t0|[[m a d ind] p]|[[m a d ind] p] r]; simpl.
  - by intros ->.
  - intros [_ ->]. by destruct ind as [[]|], sess.
  - intros (t0 & t1 & _ & _ & ->). by destruct ind as [[]|], sess.
  - intros (t0 & t1 & t2 & _ & _ & _ & ->). by destruct ind as [[]|], sess.
Qed.

(** X12. The callers of the jobs are told in the order the jobs were
    enqueued in: in every run the callbacks the queue has called are those
    of the jobs it is done with, one for each, in that order, each called
    with the outcome of the action of its job; the job in progress and the
    pending ones have not been heard of. *)
Theorem callers_are_told_in_the_order_of_the_calls
    (sess : option string) (ls : list label) (s : State) :
  run (constructor sess) ls = Some s →
  ∃ done cur,
    serial sess s done cur ∧
    notified (trace s) = delivery <$> done ∧
    (notified (trace s)).*1 `prefix_of` deferred <$> enqueued (trace s).
Proof.
  intros Hrun.
  destruct (reachable_inv _ _ _ Hrun) as (_ & _ & done & cur & Hser).
  exists done, cur. split; [done|].
  pose proof Hser as (Hqt & Hcur & Hen & _).
  assert (notified (trace s) = delivery <$> done) as Hnot.
  { rewrite <- notified_by_queue, Hqt.
    - rewrite notified_app, (in_progress_untold _ _ _ _ Hcur), app_nil_r.
      apply deliveries_done.
    - apply (run_told sess ls _ _ Hrun); [apply inv_constructor|].
      apply Forall_nil_2. }
  assert ((notified (trace s)).*1 = deferred <$> (ep_job <$> done)) as Hfst.
  { rewrite Hnot, <- !list_fmap_compose. done. }
  split; [done|]. rewrite Hfst, Hen, fmap_app. by eexists.
Qed.

Lemma callers_are_told_in_the_order_of_the_calls_witness :
  let ls := [Do (SendText "A" None); Do (SendText "B" None);
             Do (SendText "C" None);
             Tick 1000; TimerFired; ActionSettled (Rejected (VStr "boom"));
             AfterDone;
             Tick 1000; TimerFired; ActionSettled (Resolved (VStr "ok"));
             AfterDone] in
  ∃ s,
    run (constructor (Some "u1")) ls = Some s ∧
    notified (trace s)
      = [(0, Rejected (VStr "boom")); (1, Resolved (VStr "ok"))] ∧
    ∃ done cur,
      serial (Some "u1") s done cur ∧
      notified (trace s) = delivery <$> done ∧
      (notified (trace s)).*1 `prefix_of` deferred <$> enqueued (trace s).
Proof.
  intros ls. eexists. split; [vm_compute; reflexivity|].
  split; [vm_compute; reflexivity|].
  apply (callers_are_told_in_the_order_of_the_calls (Some "u1") ls).
  vm_compute. reflexivity.
Defined.
